(** * The file-content dispatcher of pkg/handlers/handlers.go

    A shallow embedding of [HandleFile], [processHandler] and [handleChunks],
    and the properties of the dispatch protocol proved about it.

    The Go code talks to four kinds of foreign code: the registered handler
    variants (interface [Handler], optionally [SpecializedHandler]), the
    disk-buffer reader library, the logger, and the two channels of the
    relay.  Every call into foreign code is a transformer of an abstract
    [World]; every such call, every log line and every chunk sent on the
    output channel is recorded, in program order, in the log of the run. *)

From Stdlib Require Import List Bool Arith Lia.
From Stdlib Require String.
From Stdlib.Strings Require Import Byte.
Import ListNotations.

Abbreviation string := String.string.
Import String.StringSyntax.
Open Scope string_scope.
Open Scope list_scope.

Set Implicit Arguments.

(** ** Channels and the scheduler *)

(** A value of Go type [chan []byte] as the relay sees it: the payloads the
    producer goroutine sends, in order, before it closes the channel. *)
Definition Chan : Type := list (list byte).

(** How the Go runtime resolves the [select] statements of the relay.  A
    [select] waits until one of its cases can proceed and, when several can,
    takes any one of them.  A schedule lists, in time order, the cancellation
    of the context and the case taken by each successive [select]. *)
Inductive tick : Type :=
| Cancel  (* the context is cancelled; [<-ctx.Done()] can proceed from now on *)
| Comm    (* the channel case proceeds: the receive from [handlerChan] in the
             outer select, the send on [chunksChan] in the inner one *)
| Done.   (* the [<-ctx.Done()] case is taken *)

(** ** Foreign code *)

(** The types and the library the dispatcher is written against.  [World] is
    everything foreign code can read or change: how far the raw stream has
    been read, temporary files, the private state of the handlers. *)
Class Externals : Type := {
  World : Type;
  Reader : Type;                       (* io.Reader *)
  DiskBufferReader : Type;             (* *diskbufferreader.DiskBufferReader *)
  error : Type;
  Metadata : Type;                     (* the fields of sources.Chunk other than Data *)
  as_Reader : DiskBufferReader -> Reader;
  diskbufferreader_New : Reader -> World -> (DiskBufferReader + error) * World;
  Seek : DiskBufferReader -> World -> option error * World;  (* Seek(0, io.SeekStart) *)
  Stop : DiskBufferReader -> World -> World;
  Close : DiskBufferReader -> World -> World
}.

Section Dispatcher.
Context `{Ext : Externals}.

(** Modelled from the spec: [sources.Chunk] is declared in pkg/sources, which
    is not part of the sources at hand.  A chunk is the envelope metadata
    shared by all chunks of one dispatch call plus one binary payload. *)
Record Chunk : Type := mkChunk {
  Meta : Metadata;
  Data : list byte
}.

(** [chunk := *chunkSkel; chunk.Data = data] *)
Definition with_Data (chunkSkel : Chunk) (data : list byte) : Chunk :=
  {| Meta := Meta chunkSkel; Data := data |}.

(** The context as foreign code sees it when called: whether it has been
    cancelled by then. *)
Definition Ctx : Type := bool.

Record SpecializedHandler : Type := {
  HandleSpecialized : Ctx -> Reader -> World -> (Reader * bool * option error) * World
}.

(** A value of interface type [Handler].  [specialized] is the outcome of the
    type assertion [h.(SpecializedHandler)]. *)
Record Handler : Type := {
  FromFile : Ctx -> Reader -> World -> Chan * World;
  IsFiletype : Ctx -> Reader -> World -> (Reader * bool) * World;
  New : World -> World;
  specialized : option SpecializedHandler
}.

(** ** Runs *)

Inductive event : Type :=
| ENew (h : Handler)
| EReaderNew (file : Reader) (res : DiskBufferReader + error)
| ELogError (err : error) (msg : string)
| EHandleSpecialized (h : Handler) (arg file : Reader) (isSpecial : bool) (err : option error)
| ESeek (reReader : DiskBufferReader) (err : option error)
| EIsFiletype (h : Handler) (arg file : Reader) (isType : bool)
| EFromFile (h : Handler) (arg : Reader) (handlerChan : Chan)
| ESend (chunk : Chunk)
| EStop (reReader : DiskBufferReader)
| EClose (reReader : DiskBufferReader).

Record state : Type := mkState {
  world : World;
  done : bool;          (* has the context been cancelled *)
  ticks : list tick     (* what the scheduler will do next *)
}.

(** The outcome of running a piece of the program: what it returned ([None]
    when it is left waiting in a [select] that never proceeds), the state it
    left, and what it did. *)
Record Run (A : Type) : Type := mkRun {
  returned : option A;
  final : state;
  log : list event
}.

Definition M (A : Type) : Type := state -> Run A.

Definition ret {A} (a : A) : M A := fun s => mkRun (Some a) s [].

Definition bind {A B} (m : M A) (k : A -> M B) : M B := fun s =>
  let r := m s in
  match returned r with
  | Some a => let r' := k a (final r) in
              mkRun (returned r') (final r') (log r ++ log r')
  | None => mkRun None (final r) (log r)
  end.

(** A call into foreign code, recorded in the log with its result. *)
Definition invoke {A} (f : Ctx -> World -> A * World) (ev : A -> event) : M A :=
  fun s =>
    let (a, w) := f (done s) (world s) in
    mkRun (Some a) (mkState w (done s) (ticks s)) [ev a].

Definition logError (err : error) (msg : string) : M unit :=
  fun s => mkRun (Some tt) s [ELogError err msg].

(** [defer d; body]: [d] runs when [body] returns. *)
Definition defer {A} (d : M unit) (body : M A) : M A := fun s =>
  let r := body s in
  match returned r with
  | Some a => let r' := d (final r) in
              mkRun (Some a) (final r') (log r ++ log r')
  | None => r
  end.

(** [for _, x := range xs { body }; rest], where [body] may return from the
    enclosing function ([Some b]) or fall through to the next round. *)
Fixpoint for_range {A B} (xs : list A) (body : A -> M (option B)) (rest : M B) : M B :=
  match xs with
  | [] => rest
  | x :: xs' =>
      bind (body x) (fun o =>
        match o with
        | Some b => ret b
        | None => for_range xs' body rest
        end)
  end.

End Dispatcher.

Declare Scope go_scope.
Delimit Scope go_scope with go.
Notation "x <- m ;; k" := (bind m (fun x => k))
  (at level 61, m at next level, right associativity) : go_scope.
Notation "m ;; k" := (bind m (fun _ => k))
  (at level 61, right associativity) : go_scope.
Open Scope go_scope.

Section Program.
Context `{Ext : Externals}.

(** ** handleChunks *)

(** The two [select] statements of the relay loop, the inner one nested in
    the receive case of the outer one.  [w] is carried along unchanged. *)
Fixpoint select_recv (sched : list tick) (w : World) (cancelled : bool)
    (handlerChan : Chan) (chunkSkel : Chunk) {struct sched} : Run bool :=
  match sched with
  | [] => mkRun None (mkState w cancelled []) []
  | Cancel :: sched' => select_recv sched' w true handlerChan chunkSkel
  | Done :: sched' =>
      if cancelled then mkRun (Some false) (mkState w cancelled sched') []
      else select_recv sched' w cancelled handlerChan chunkSkel
  | Comm :: sched' =>
      match handlerChan with
      | [] => mkRun (Some true) (mkState w cancelled sched') []
      | data :: handlerChan' =>
          let chunk := with_Data chunkSkel data in
          select_send sched' w cancelled chunk handlerChan' chunkSkel
      end
  end
with select_send (sched : list tick) (w : World) (cancelled : bool)
    (chunk : Chunk) (handlerChan : Chan) (chunkSkel : Chunk) {struct sched} : Run bool :=
  match sched with
  | [] => mkRun None (mkState w cancelled []) []
  | Cancel :: sched' => select_send sched' w true chunk handlerChan chunkSkel
  | Done :: sched' =>
      if cancelled then mkRun (Some false) (mkState w cancelled sched') []
      else select_send sched' w cancelled chunk handlerChan chunkSkel
  | Comm :: sched' =>
      let r := select_recv sched' w cancelled handlerChan chunkSkel in
      mkRun (returned r) (final r) (ESend chunk :: log r)
  end.

Definition handleChunks (handlerChan : Chan) (chunkSkel : Chunk) : M bool :=
  fun s => select_recv (ticks s) (world s) (done s) handlerChan chunkSkel.

(** ** processHandler *)

Definition callHandleSpecialized (h : Handler) (specialHandler : SpecializedHandler)
    (arg : Reader) : M (Reader * bool * option error) :=
  invoke (fun ctx => HandleSpecialized specialHandler ctx arg)
         (fun r => EHandleSpecialized h arg (fst (fst r)) (snd (fst r)) (snd r)).

Definition callIsFiletype (h : Handler) (arg : Reader) : M (Reader * bool) :=
  invoke (fun ctx => IsFiletype h ctx arg)
         (fun r => EIsFiletype h arg (fst r) (snd r)).

Definition callFromFile (h : Handler) (arg : Reader) : M Chan :=
  invoke (fun ctx => FromFile h ctx arg) (EFromFile h arg).

Definition callSeek (reReader : DiskBufferReader) : M (option error) :=
  invoke (fun _ => Seek reReader) (ESeek reReader).

Definition callStop (reReader : DiskBufferReader) : M unit :=
  invoke (fun _ w => (tt, Stop reReader w)) (fun _ => EStop reReader).

Definition callClose (reReader : DiskBufferReader) : M unit :=
  invoke (fun _ w => (tt, Close reReader w)) (fun _ => EClose reReader).

(** Lines 66-74: the specialized step.  [Some b] when [processHandler]
    returns [b] from inside it, [None] when control falls through. *)
Definition specializedStep (h : Handler) (reReader : DiskBufferReader)
    (chunkSkel : Chunk) : M (option bool) :=
  match specialized h with
  | Some specialHandler =>
      r <- callHandleSpecialized h specialHandler (as_Reader reReader) ;;
      let '(file, isSpecial, err) := r in
      if isSpecial then
        handlerChan <- callFromFile h file ;;
        b <- handleChunks handlerChan chunkSkel ;;
        ret (Some b)
      else
        match err with
        | Some e => logError e "error handling file"
        | None => ret tt
        end ;;
        ret None
  | None => ret None
  end.

(** Lines 76-85: rewind, ordinary type check, relay. *)
Definition ordinaryStep (h : Handler) (reReader : DiskBufferReader)
    (chunkSkel : Chunk) : M bool :=
  err <- callSeek reReader ;;
  match err with
  | Some e => logError e "error seeking to start of file" ;; ret false
  | None =>
      r <- callIsFiletype h (as_Reader reReader) ;;
      let '(_, isType) := r in
      if negb isType then ret false
      else
        handlerChan <- callFromFile h (as_Reader reReader) ;;
        handleChunks handlerChan chunkSkel
  end.

Definition processHandler (h : Handler) (reReader : DiskBufferReader)
    (chunkSkel : Chunk) : M bool :=
  defer (callClose reReader)
 (defer (callStop reReader)
   (o <- specializedStep h reReader chunkSkel ;;
    match o with
    | Some b => ret b
    | None => ordinaryStep h reReader chunkSkel
    end)).

(** ** HandleFile *)

(** The body of the loop of [HandleFile], lines 43-56. *)
Definition tryHandler (file : Reader) (chunkSkel : Chunk) (h : Handler) : M (option bool) :=
  invoke (fun _ w => (tt, New h w)) (fun _ => ENew h) ;;
  res <- invoke (fun _ => diskbufferreader_New file) (EReaderNew file) ;;
  match res with
  | inr err => logError err "error creating reusable reader" ;; ret (Some false)
  | inl reReader =>
      success <- processHandler h reReader chunkSkel ;;
      if success then ret (Some true) else ret None
  end.

(** [HandleFile] with the list it ranges over made explicit. *)
Definition HandleFile_over (handlers : list Handler) (file : Reader)
    (chunkSkel : Chunk) : M bool :=
  for_range handlers (tryHandler file chunkSkel) (ret false).

(** [Archive] is declared in another file of the package. *)
Variable Archive : Handler.

Definition DefaultHandlers : list Handler := [Archive].

Definition HandleFile (file : Reader) (chunkSkel : Chunk) : M bool :=
  HandleFile_over DefaultHandlers file chunkSkel.

End Program.

(** ** Vocabulary for stating properties of runs *)

Section Vocabulary.
Context `{Ext : Externals}.

(** The chunks sent on the output channel, in order. *)
Fixpoint sends (t : list event) : list Chunk :=
  match t with
  | [] => []
  | ESend chunk :: t' => chunk :: sends t'
  | _ :: t' => sends t'
  end.

(** The chunks a relay makes of the payloads of a producer channel. *)
Definition chunks_of (chunkSkel : Chunk) (handlerChan : Chan) : list Chunk :=
  map (with_Data chunkSkel) handlerChan.

(** Variant [h] accepted the stream in the run logged as [t]: its
    [HandleSpecialized] recognized it, or its [IsFiletype] did. *)
Definition accepted_by (h : Handler) (t : list event) : Prop :=
  (exists arg file err, In (EHandleSpecialized h arg file true err) t) \/
  (exists arg file, In (EIsFiletype h arg file true) t).

(** [n] payloads received and sent, one after the other. *)
Fixpoint rounds (n : nat) : list tick :=
  match n with
  | 0 => []
  | S n' => Comm :: Comm :: rounds n'
  end.

(** How many channel operations a schedule lets proceed. *)
Fixpoint comms (sched : list tick) : nat :=
  match sched with
  | [] => 0
  | Comm :: sched' => S (comms sched')
  | _ :: sched' => comms sched'
  end.

(** What a run of the relay looks like: it forwards the chunks of a prefix of
    the payloads, in order, and nothing else; it touches nothing of the
    world; it returns [true] only with every payload forwarded and [false]
    only by taking the cancellation case of a [select], with the context
    cancelled. *)
Inductive relay_run (sched : list tick) (w : World) (cancelled : bool)
    (chunkSkel : Chunk) (handlerChan : Chan) (r : Run bool) : Prop :=
| RelayRun (forwarded : nat)
    (forwarded_le : forwarded <= length handlerChan)
    (relay_log : log r = map ESend (chunks_of chunkSkel (firstn forwarded handlerChan)))
    (relay_world : world (final r) = w)
    (relay_true : returned r = Some true -> forwarded = length handlerChan)
    (relay_false : returned r = Some false ->
       done (final r) = true /\
       exists before, sched = before ++ Done :: ticks (final r))
    (relay_done : cancelled = true -> done (final r) = true).

Definition prepend {A} (t : list event) (r : Run A) : Run A :=
  mkRun (returned r) (final r) (t ++ log r).

(** The rounds of the loop of [HandleFile_over] over a prefix of the
    handler list: [Some b] when one of them returned [b] from [HandleFile],
    [None] when all of them fell through to the next round. *)
Definition attempts (handlers : list Handler) (file : Reader) (chunkSkel : Chunk)
  : M (option bool) :=
  for_range handlers
    (fun h => o <- tryHandler file chunkSkel h ;; ret (option_map (@Some bool) o))
    (ret None).

End Vocabulary.

(** ** The protocol of one attempt *)

Section Protocol.
Context `{Ext : Externals}.

(** The two deferred calls of [processHandler], run once its body has
    returned, last deferred first. *)
Definition released {A} (reReader : DiskBufferReader) (r : Run A) : Run A :=
  match returned r with
  | Some a =>
      mkRun (Some a)
            (mkState (Close reReader (Stop reReader (world (final r))))
                     (done (final r)) (ticks (final r)))
            (log r ++ [EStop reReader; EClose reReader])
  | None => r
  end.

(** The release of the source as it shows in the log of an attempt. *)
Definition closing {A} (reReader : DiskBufferReader) (ret : option A) : list event :=
  match ret with
  | Some _ => [EStop reReader; EClose reReader]
  | None => []
  end.

(** What the specialized step leaves in the log when it falls through. *)
Inductive not_special (h : Handler) (reReader : DiskBufferReader) : list event -> Prop :=
| no_capability :
    specialized h = None ->
    not_special h reReader []
| unrecognized (file : Reader) :
    not_special h reReader [EHandleSpecialized h (as_Reader reReader) file false None]
| unrecognized_error (file : Reader) (e : error) :
    not_special h reReader
      [EHandleSpecialized h (as_Reader reReader) file false (Some e);
       ELogError e "error handling file"].

(** The four ways through [processHandler]. *)
Inductive attempt (h : Handler) (reReader : DiskBufferReader) (chunkSkel : Chunk)
    (s : state) : Run bool -> Prop :=
| attempt_unwrapped (file : Reader) (err : option error) (handlerChan : Chan) (w : World) :
    attempt h reReader chunkSkel s
      (released reReader
         (prepend [EHandleSpecialized h (as_Reader reReader) file true err;
                   EFromFile h file handlerChan]
                  (handleChunks handlerChan chunkSkel (mkState w (done s) (ticks s)))))
| attempt_seek_failed (probe : list event) (e : error) (w : World) :
    not_special h reReader probe ->
    attempt h reReader chunkSkel s
      (released reReader
         (mkRun (Some false) (mkState w (done s) (ticks s))
                (probe ++ [ESeek reReader (Some e);
                           ELogError e "error seeking to start of file"])))
| attempt_rejected (probe : list event) (file : Reader) (w : World) :
    not_special h reReader probe ->
    attempt h reReader chunkSkel s
      (released reReader
         (mkRun (Some false) (mkState w (done s) (ticks s))
                (probe ++ [ESeek reReader None;
                           EIsFiletype h (as_Reader reReader) file false])))
| attempt_recognized (probe : list event) (file : Reader) (handlerChan : Chan) (w : World) :
    not_special h reReader probe ->
    attempt h reReader chunkSkel s
      (released reReader
         (prepend (probe ++ [ESeek reReader None;
                             EIsFiletype h (as_Reader reReader) file true;
                             EFromFile h (as_Reader reReader) handlerChan])
                  (handleChunks handlerChan chunkSkel (mkState w (done s) (ticks s))))).

(** How a round of the loop of [HandleFile] reads the result of
    [processHandler]: return [true] from [HandleFile] on success, go on to
    the next handler otherwise. *)
Definition verdict (r : Run bool) : Run (option bool) :=
  mkRun (option_map (fun success : bool => if success then Some true else None)
                    (returned r))
        (final r) (log r).

(** A round in which no variant accepted forwards nothing and does not
    end the call with [true]. *)
Definition quiet {A} (a : Run A) : Prop :=
  (forall h', ~ accepted_by h' (log a)) /\ sends (log a) = [].

(** A round in which [h] accepted: the log up to the start of the producer,
    the chunks forwarded from it, the rest. *)
Definition relayed {A} (h : Handler) (chunkSkel : Chunk) (full : Prop) (a : Run A) : Prop :=
  accepted_by h (log a) /\
  (forall h', accepted_by h' (log a) -> h' = h) /\
  exists before arg handlerChan m after,
    log a = before ++ EFromFile h arg handlerChan
                   :: map ESend (chunks_of chunkSkel (firstn m handlerChan)) ++ after /\
    sends before = [] /\ sends after = [] /\
    m <= length handlerChan /\
    (full -> m = length handlerChan).

(** ** Reading a log *)

(** The handlers reset, in order: one per round of the loop. *)
Fixpoint news (t : list event) : list Handler :=
  match t with
  | [] => []
  | ENew h :: t' => h :: news t'
  | _ :: t' => news t'
  end.

(** The sources constructed, stopped and closed, in order. *)
Fixpoint constructed (t : list event) : list DiskBufferReader :=
  match t with
  | [] => []
  | EReaderNew _ (inl reReader) :: t' => reReader :: constructed t'
  | _ :: t' => constructed t'
  end.

Fixpoint stopped (t : list event) : list DiskBufferReader :=
  match t with
  | [] => []
  | EStop reReader :: t' => reReader :: stopped t'
  | _ :: t' => stopped t'
  end.

Fixpoint closed (t : list event) : list DiskBufferReader :=
  match t with
  | [] => []
  | EClose reReader :: t' => reReader :: closed t'
  | _ :: t' => closed t'
  end.

(** The handler an event is a call of, the source it is an operation on. *)
Definition handler_of (e : event) : option Handler :=
  match e with
  | ENew h | EHandleSpecialized h _ _ _ _ | EIsFiletype h _ _ _ | EFromFile h _ _ => Some h
  | _ => None
  end.

Definition source_of (e : event) : option DiskBufferReader :=
  match e with
  | ESeek d _ | EStop d | EClose d => Some d
  | _ => None
  end.

(** ** Invariants of the world *)

(** Foreign code takes the world only along [R]. *)
Definition respects (R : World -> World -> Prop) (h : Handler) : Prop :=
  (forall w, R w (New h w)) /\
  (forall ctx arg w, R w (snd (IsFiletype h ctx arg w))) /\
  (forall ctx arg w, R w (snd (FromFile h ctx arg w))) /\
  (forall sp, specialized h = Some sp ->
     forall ctx arg w, R w (snd (HandleSpecialized sp ctx arg w))).

Definition library_respects (R : World -> World -> Prop) : Prop :=
  (forall file w, R w (snd (diskbufferreader_New file w))) /\
  (forall d w, R w (snd (Seek d w))) /\
  (forall d w, R w (Stop d w)) /\
  (forall d w, R w (Close d w)).

(** A piece of the program takes the world only along [R]. *)
Definition keeps {A} (R : World -> World -> Prop) (m : M A) : Prop :=
  forall s, R (world s) (world (final (m s))).

End Protocol.

(** ** A single-pass stream behind a rewindable source *)

(** Modelled from the spec: the disk-buffer reader is a library outside the
    sources at hand, and so is whatever implements the caller's [io.Reader].
    The raw stream is single-pass: a byte drawn from it is gone from it.  A
    Rewindable Source keeps every byte it has drawn from the stream it wraps,
    so that after a seek to its start it yields the same bytes again, from
    the first byte it drew.  One source is live at a time: the dispatcher
    closes each source before it constructs the next. *)
Module SinglePass.

Record stream_world : Type := {
  raw : list byte;     (* what is left of the caller's stream *)
  kept : list byte;    (* what the live source has drawn and kept *)
  offset : nat;        (* how far into [kept ++ raw] the live source has been read *)
  storage : bool;      (* can backing storage for a new source be had *)
  opened : bool;       (* has the live source not been closed *)
  made : nat           (* how many sources were constructed so far *)
}.

(** The readers in play: the caller's stream, a Rewindable Source, and
    readers a handler builds around the one it was given. *)
Inductive reader : Type :=
| RawStream
| Rewindable (n : nat)
| Wrapped (n : nat).

(** What a source yields when read from its start. *)
Definition presented (w : stream_world) : list byte := kept w ++ raw w.

Definition new_source (file : reader) (w : stream_world)
  : (nat + string) * stream_world :=
  if storage w then
    (inl (made w),
     {| raw := raw w; kept := []; offset := 0; storage := true;
        opened := true; made := S (made w) |})
  else (inr "cannot create temporary file", w).

Definition seek_start (reReader : nat) (w : stream_world)
  : option string * stream_world :=
  if opened w then
    (None,
     {| raw := raw w; kept := kept w; offset := 0; storage := storage w;
        opened := true; made := made w |})
  else (Some "seek on closed source", w).

Definition stop_source (reReader : nat) (w : stream_world) : stream_world := w.

Definition close_source (reReader : nat) (w : stream_world) : stream_world :=
  {| raw := raw w; kept := []; offset := 0; storage := storage w;
     opened := false; made := made w |}.

#[export] Instance externals : Externals := {|
  World := stream_world;
  Reader := reader;
  DiskBufferReader := nat;
  error := string;
  Metadata := string;
  as_Reader := Rewindable;
  diskbufferreader_New := new_source;
  Seek := seek_start;
  Stop := stop_source;
  Close := close_source
|}.

(** Reading up to [n] bytes through the live source: bytes already kept are
    replayed, the others are drawn from the raw stream and kept. *)
Definition read (n : nat) (w : stream_world) : list byte * stream_world :=
  let total := kept w ++ raw w in
  let got := firstn n (skipn (offset w) total) in
  let pos := offset w + length got in
  let upto := Nat.max (length (kept w)) pos in
  (got,
   {| raw := skipn upto total; kept := firstn upto total; offset := pos;
      storage := storage w; opened := opened w; made := made w |}).

Fixpoint bytes_eqb (a b : list byte) : bool :=
  match a, b with
  | [], [] => true
  | x :: a', y :: b' => Byte.eqb x y && bytes_eqb a' b'
  | _, _ => false
  end.

(** From [w] to [w'] bytes have at most been drawn from the raw stream:
    what is left of it in [w'] is an end piece of what was left in [w]. *)
Definition drawn (w w' : stream_world) : Prop :=
  exists n, raw w' = skipn n (raw w).

(** A variant that gets at the raw stream only by reading. *)
Definition well_behaved (h : Handler) : Prop := respects drawn h.

(** *** Handler variants to run the dispatcher on *)

(** A variant that recognizes its format by the leading bytes of the stream
    and produces what it reads from there on, one payload per byte. *)
Definition sniffer (magic : list byte) : Handler := {|
  FromFile := fun _ _ w =>
    let (got, w') := read (length (presented w)) w in
    (map (fun b => [b]) got, w');
  IsFiletype := fun _ _ w =>
    let (got, w') := read (length magic) w in
    ((Wrapped 0, bytes_eqb got magic), w');
  New := fun w => w;
  specialized := None
|}.

(** A variant that unwraps a container recognized by its leading bytes: the
    replacement reader stands for the unwrapped content [inner], which is
    what it produces then, as one payload.  Its recognition reports [err]. *)
Definition unwrapper (magic inner : list byte) (err : option string) : Handler := {|
  FromFile := fun _ arg w =>
    match arg with
    | Wrapped 1 => ([inner], w)
    | _ => let (got, w') := read (length (presented w)) w in ([got], w')
    end;
  IsFiletype := fun _ _ w =>
    let (got, w') := read (length magic) w in
    ((Wrapped 0, bytes_eqb got magic), w');
  New := fun w => w;
  specialized := Some {|
    HandleSpecialized := fun _ arg w =>
      let (got, w') := read (length magic) w in
      if bytes_eqb got magic then ((Wrapped 1, true, err), w')
      else ((arg, false, err), w')
  |}
|}.

(** A variant whose specialized probe closes the reader it was given. *)
Definition slammer : Handler := {|
  FromFile := fun _ _ w => ([], w);
  IsFiletype := fun _ _ w => ((Wrapped 0, true), w);
  New := fun w => w;
  specialized := Some {|
    HandleSpecialized := fun _ arg w => ((arg, false, None), close_source 0 w)
  |}
|}.

(** A variant that takes any stream and whose producer uses up the
    temporary storage while it emits [payloads]. *)
Definition hoarder (payloads : Chan) : Handler := {|
  FromFile := fun _ _ w =>
    (payloads,
     {| raw := raw w; kept := kept w; offset := offset w; storage := false;
        opened := opened w; made := made w |});
  IsFiletype := fun _ arg w => ((arg, true), w);
  New := fun w => w;
  specialized := None
|}.

Definition fresh (input : list byte) (sched : list tick) : state :=
  mkState
    {| raw := input; kept := []; offset := 0; storage := true;
       opened := false; made := 0 |}
    false sched.

Definition template : Chunk := {| Meta := "t1"; Data := [] |}.

Definition bytes (s : string) : list byte := String.list_byte_of_string s.

(** A state in which source number 0 is live over [input]. *)
Definition sourced (input : list byte) (sched : list tick) : state :=
  mkState
    {| raw := input; kept := []; offset := 0; storage := true;
       opened := true; made := 1 |}
    false sched.

(** *** Runs to look at *)

Definition zipLike : Handler := sniffer (bytes "PK").
Definition abLike : Handler := sniffer (bytes "ab").
Definition taker : Handler := hoarder [bytes "x"; bytes "y"].
Definition container : Handler := unwrapper (bytes "ar") (bytes "inner") (Some "odd").

(** The end-to-end scenario: payloads a, bc, def relayed to the end. *)
Definition threePayloads : Chan := [bytes "a"; bytes "bc"; bytes "def"].
Definition relayToEnd : Run bool :=
  handleChunks threePayloads template (fresh [] (rounds 3 ++ [Comm])).

(** Two payloads; the context is cancelled after the first is forwarded. *)
Definition twoPayloads : Chan := [bytes "a"; bytes "bc"].
Definition cancelledAtOnce : Run bool :=
  handleChunks twoPayloads template (fresh [] (rounds 1 ++ [Cancel; Done])).
Definition cancelledLate : Run bool :=
  handleChunks twoPayloads template
    (fresh [] (rounds 1 ++ [Cancel; Comm; Comm; Done])).
Definition cancelledInVain : Run bool :=
  handleChunks twoPayloads template
    (fresh [] (rounds 1 ++ [Cancel; Comm; Comm; Comm])).

(** The first variant rejects, the second takes the stream. *)
Definition secondTakes : Run bool :=
  HandleFile_over [zipLike; taker] RawStream template
    (fresh (bytes "abcd") (rounds 2 ++ [Comm])).

(** The first variant takes the stream and is cancelled after one chunk;
    no source can be constructed for the second. *)
Definition cancelledThenNoSource : Run bool :=
  HandleFile_over [taker; zipLike] RawStream template
    (fresh (bytes "abcd") (rounds 1 ++ [Cancel; Done])).

(** A container recognized by the specialized probe, which reports an
    error all the same; and a stream the probe does not recognize. *)
Definition unwrapped : Run bool :=
  processHandler container 0 template
    (sourced (bytes "arxx") (rounds 1 ++ [Comm])).
Definition notAContainer : Run bool :=
  processHandler container 0 template
    (sourced (bytes "abcd") (rounds 1 ++ [Comm])).

(** A probe that closes the source, so that the rewind fails. *)
Definition slammed : Run (option bool) :=
  tryHandler RawStream template slammer (fresh (bytes "abcd") []).

(** The ordinary path. *)
Definition sniffed : Run bool :=
  processHandler abLike 0 template (sourced (bytes "abcd") (rounds 2 ++ [Comm])).

(** Two variants that sniff the leading bytes, on a stream of the second
    one's format. *)
Definition sniffedTwice : Run bool :=
  HandleFile_over [zipLike; abLike] RawStream template
    (fresh (bytes "abcd") (rounds 2 ++ [Comm])).
Definition afterZipLike : Run (option bool) :=
  attempts [zipLike] RawStream template (fresh (bytes "abcd") (rounds 2 ++ [Comm])).

(** [HandleFile] with [taker] as its one handler, cancelled after the first
    of the two payloads has been forwarded. *)
Definition cancelledTaker : Run bool :=
  HandleFile taker RawStream template
    (fresh (bytes "abcd") (rounds 1 ++ [Cancel; Done])).

(** [HandleFile] with a sniffing handler, on a stream of its format; and in
    a world without temporary storage. *)
Definition sniffingCall : Run bool :=
  HandleFile abLike RawStream template (fresh (bytes "abcd") (rounds 2 ++ [Comm])).
Definition noStorage : state :=
  mkState
    {| raw := bytes "abcd"; kept := []; offset := 0; storage := false;
       opened := false; made := 0 |}
    false (rounds 2 ++ [Comm]).
Definition callWithoutStorage : Run bool :=
  HandleFile abLike RawStream template noStorage.

(** Three payloads and a consumer that stalls after the first chunk. *)
Definition stalledState : state := fresh [] (rounds 1 ++ [Comm]).
Definition stalled : Run bool := handleChunks threePayloads template stalledState.

(** A stream that is not of the format of the variant tried. *)
Definition rejected : Run bool :=
  processHandler zipLike 0 template (sourced (bytes "abcd") []).

End SinglePass.

(** * Properties *)

Unset Implicit Arguments.

(** ** The relay *)

Section RelayFacts.
Context `{Ext : Externals}.

Lemma sends_app (t1 t2 : list event) : sends (t1 ++ t2) = sends t1 ++ sends t2.
Proof.
  induction t1 as [|e t1 IH]; [reflexivity|].
  destruct e; simpl; rewrite IH; reflexivity.
Qed.

Lemma sends_map_ESend (cs : list Chunk) : sends (map ESend cs) = cs.
Proof. induction cs as [|c cs IH]; simpl; congruence. Qed.

Lemma rounds_comms (n : nat) : comms (rounds n) = 2 * n.
Proof. induction n as [|n IH]; simpl; lia. Qed.

Lemma relay_run_tick (t : tick) sched w c c' skel chan r :
  relay_run sched w c' skel chan r ->
  (c = true -> c' = true) ->
  relay_run (t :: sched) w c skel chan r.
Proof.
  intros [m Hle Hlog Hw Ht Hf Hd] Hc.
  apply RelayRun with (forwarded := m); auto.
  intros E. destruct (Hf E) as [Hdn [before Hb]]. split; [exact Hdn|].
  exists (t :: before). simpl. congruence.
Qed.

Lemma select_runs (chunkSkel : Chunk) (w : World) (sched : list tick) :
  (forall c chan, relay_run sched w c chunkSkel chan
                    (select_recv sched w c chan chunkSkel)) /\
  (forall c data chan, relay_run sched w c chunkSkel (data :: chan)
                    (select_send sched w c (with_Data chunkSkel data) chan chunkSkel)).
Proof.
  induction sched as [|t sched [IHr IHs]].
  - split; intros; apply RelayRun with (forwarded := 0);
      simpl; auto with arith; discriminate.
  - split.
    + intros c chan. destruct t; simpl.
      * apply relay_run_tick with (c' := true); auto.
      * destruct chan as [|data chan].
        -- apply RelayRun with (forwarded := 0); simpl; auto; discriminate.
        -- apply relay_run_tick with (c' := c); auto.
      * destruct c.
        -- apply RelayRun with (forwarded := 0); simpl; auto with arith;
             [discriminate|].
           intros _. split; [reflexivity|]. exists []. reflexivity.
        -- apply relay_run_tick with (c' := false); auto.
    + intros c data chan. destruct t; simpl.
      * apply relay_run_tick with (c' := true); auto.
      * destruct (IHr c chan) as [m Hle Hlog Hw Ht Hf Hd].
        apply RelayRun with (forwarded := S m); simpl; auto with arith.
        -- rewrite Hlog. reflexivity.
        -- intros E. destruct (Hf E) as [Hdn [before Hb]]. split; [exact Hdn|].
           exists (Comm :: before). simpl. congruence.
      * destruct c.
        -- apply RelayRun with (forwarded := 0); simpl; auto with arith;
             [discriminate|].
           intros _. split; [reflexivity|]. exists []. reflexivity.
        -- apply relay_run_tick with (c' := false); auto.
Qed.

Lemma handleChunks_run (handlerChan : Chan) (chunkSkel : Chunk) (s : state) :
  relay_run (ticks s) (world s) (done s) chunkSkel handlerChan
            (handleChunks handlerChan chunkSkel s).
Proof. apply select_runs. Qed.

Lemma never_cancelled_run (chunkSkel : Chunk) (w : World) (sched : list tick) :
  ~ In Cancel sched ->
  (forall chan, 2 * length chan + 1 <= comms sched ->
     let r := select_recv sched w false chan chunkSkel in
     returned r = Some true /\ log r = map ESend (chunks_of chunkSkel chan)) /\
  (forall chunk chan, 2 * length chan + 2 <= comms sched ->
     let r := select_send sched w false chunk chan chunkSkel in
     returned r = Some true /\
     log r = ESend chunk :: map ESend (chunks_of chunkSkel chan)).
Proof.
  induction sched as [|t sched IH]; intros Hno.
  - split; simpl; intros; lia.
  - assert (Hno' : ~ In Cancel sched) by (intros H; apply Hno; right; exact H).
    destruct (IH Hno') as [IHr IHs].
    destruct t; simpl.
    + exfalso. apply Hno. left. reflexivity.
    + split.
      * intros [|data chan] Hc; simpl in *.
        -- split; reflexivity.
        -- apply IHs. lia.
      * intros chunk chan Hc.
        destruct (IHr chan) as [Hret Hlog]; [lia|].
        simpl. rewrite Hret, Hlog. split; reflexivity.
    + split; [apply IHr | apply IHs].
Qed.

Lemma Data_with_Data (chunkSkel : Chunk) (payloads : list (list byte)) :
  map Data (map (with_Data chunkSkel) payloads) = payloads.
Proof. induction payloads as [|d l IH]; simpl; congruence. Qed.

Lemma Meta_with_Data (chunkSkel : Chunk) (payloads : list (list byte)) (chunk : Chunk) :
  In chunk (map (with_Data chunkSkel) payloads) -> Meta chunk = Meta chunkSkel.
Proof.
  intros Hin. apply in_map_iff in Hin. destruct Hin as (d & <- & _). reflexivity.
Qed.

(** C2. Whenever the producer channel yields N payloads and is then closed,
    the context is never cancelled, and the scheduler lets the 2N+1 channel
    operations proceed (N receives, N sends, the receive of the close),
    [handleChunks] returns [true] having sent exactly N chunks on the output
    channel, in the order received: the data of the chunks are the N
    payloads, and but for its data each chunk is the template. *)
Theorem handleChunks_forwards_every_payload
    (handlerChan : Chan) (chunkSkel : Chunk) (s : state) :
  done s = false ->
  ~ In Cancel (ticks s) ->
  2 * length handlerChan + 1 <= comms (ticks s) ->
  let r := handleChunks handlerChan chunkSkel s in
  returned r = Some true /\
  log r = map ESend (sends (log r)) /\
  length (sends (log r)) = length handlerChan /\
  map Data (sends (log r)) = handlerChan /\
  (forall chunk, In chunk (sends (log r)) -> Meta chunk = Meta chunkSkel) /\
  sends (log r)
  = map (fun data => {| Meta := Meta chunkSkel; Data := data |}) handlerChan /\
  world (final r) = world s.
Proof.
  intros Hd Hno Hc r.
  destruct (never_cancelled_run chunkSkel (world s) (ticks s) Hno) as [Hr _].
  destruct (Hr handlerChan Hc) as [Hret Hlog].
  unfold handleChunks in r. subst r. rewrite Hd.
  unfold chunks_of in Hlog. rewrite Hlog, sends_map_ESend, length_map.
  split; [exact Hret|]. split; [reflexivity|]. split; [reflexivity|].
  split; [apply Data_with_Data|].
  split; [apply Meta_with_Data|].
  split; [reflexivity|].
  destruct (select_runs chunkSkel (world s) (ticks s)) as [Hrun _].
  destruct (Hrun false handlerChan); assumption.
Qed.

Lemma firstn_skipn_firstn {A} (n m : nat) (l : list A) :
  firstn n l ++ firstn m (skipn n l) = firstn (n + m) l.
Proof.
  revert l. induction n as [|n IH]; intros l; [reflexivity|].
  destruct l as [|a l]; simpl.
  - destruct m; reflexivity.
  - rewrite IH. reflexivity.
Qed.

(** [n] unhindered rounds of the loop forward the first [n] payloads. *)
Lemma select_recv_rounds (n : nat) sched w c chan chunkSkel :
  n <= length chan ->
  select_recv (rounds n ++ sched) w c chan chunkSkel =
  prepend (map ESend (chunks_of chunkSkel (firstn n chan)))
          (select_recv sched w c (skipn n chan) chunkSkel).
Proof.
  revert chan. induction n as [|n IH]; intros chan Hn.
  - simpl. unfold prepend. simpl. destruct (select_recv _ _ _ _ _); reflexivity.
  - destruct chan as [|data chan]; [simpl in Hn; lia|].
    simpl in Hn. simpl. rewrite IH by lia. reflexivity.
Qed.

Lemma relay_after_cancel (handlerChan : Chan) (chunkSkel : Chunk)
    (forwardedBefore : nat) (rest : list tick) (s : state) :
  forwardedBefore < length handlerChan ->
  ticks s = rounds forwardedBefore ++ Cancel :: rest ->
  let r := handleChunks handlerChan chunkSkel s in
  (exists m, forwardedBefore <= m <= length handlerChan /\
             log r = map ESend (chunks_of chunkSkel (firstn m handlerChan)) /\
             (returned r = Some true -> m = length handlerChan)) /\
  (returned r = Some false ->
     exists before, rest = before ++ Done :: ticks (final r)) /\
  (forall rest', rest = Done :: rest' ->
     returned r = Some false /\
     log r = map ESend (chunks_of chunkSkel (firstn forwardedBefore handlerChan)) /\
     ticks (final r) = rest').
Proof.
  intros HM Ht r. unfold handleChunks in r. subst r. rewrite Ht.
  rewrite select_recv_rounds by lia. unfold prepend. simpl.
  destruct (select_runs chunkSkel (world s) rest) as [Hrun _].
  destruct (Hrun true (skipn forwardedBefore handlerChan))
    as [m Hle Hlog Hw Htrue Hfalse _].
  rewrite length_skipn in Hle, Htrue.
  repeat split.
  - exists (forwardedBefore + m). split; [lia|]. split.
    + rewrite Hlog. unfold chunks_of. rewrite <- map_app, <- map_app.
      rewrite firstn_skipn_firstn. reflexivity.
    + intros E. specialize (Htrue E). lia.
  - intros E. destruct (Hfalse E) as [_ Hb]. exact Hb.
  - subst rest. reflexivity.
  - subst rest. simpl. rewrite app_nil_r. reflexivity.
  - subst rest. reflexivity.
Qed.

End RelayFacts.

(** ** Running the monad *)

Section RunFacts.
Context `{Ext : Externals}.

Lemma run_eta {A} (r : Run A) : mkRun (returned r) (final r) (log r) = r.
Proof. destruct r; reflexivity. Qed.

Lemma prepend_nil {A} (r : Run A) : prepend [] r = r.
Proof. apply run_eta. Qed.

Lemma prepend_prepend {A} (t1 t2 : list event) (r : Run A) :
  prepend t1 (prepend t2 r) = prepend (t1 ++ t2) r.
Proof. unfold prepend; simpl. rewrite app_assoc. reflexivity. Qed.

Lemma released_prepend {A} (reReader : DiskBufferReader) (t : list event) (r : Run A) :
  released reReader (prepend t r) = prepend t (released reReader r).
Proof.
  destruct r as [[a|] s1 l1]; unfold released, prepend; simpl;
    [rewrite app_assoc|]; reflexivity.
Qed.

Lemma bind_ret {A B} (a : A) (k : A -> M B) (s : state) :
  bind (ret a) k s = k a s.
Proof. unfold bind, ret; simpl. apply run_eta. Qed.

Lemma bind_assoc {A B C} (m : M A) (f : A -> M B) (g : B -> M C) (s : state) :
  bind (bind m f) g s = bind m (fun a => bind (f a) g) s.
Proof.
  unfold bind. destruct (m s) as [[a|] s1 l1]; simpl; [|reflexivity].
  destruct (f a s1) as [[b|] s2 l2]; simpl; [|reflexivity].
  rewrite app_assoc. reflexivity.
Qed.

Lemma bind_invoke {A B} (f : Ctx -> World -> A * World) (ev : A -> event)
    (k : A -> M B) (s : state) (a : A) (w : World) :
  f (done s) (world s) = (a, w) ->
  bind (invoke f ev) k s = prepend [ev a] (k a (mkState w (done s) (ticks s))).
Proof. intros E. unfold bind, invoke. rewrite E. reflexivity. Qed.

End RunFacts.

Ltac step_invoke H :=
  match goal with
  | |- context [bind (invoke ?f ?ev) ?k ?s] =>
      rewrite (bind_invoke f ev k s _ _ H);
      cbv beta iota; cbn [negb fst snd done world ticks]
  end.

Section RunFacts2.
Context `{Ext : Externals}.

Lemma bind_logError {B} (e : error) (msg : string) (k : unit -> M B) (s : state) :
  bind (logError e msg) k s = prepend [ELogError e msg] (k tt s).
Proof. reflexivity. Qed.

Lemma bind_some_back {A} (m : M A) (rest : M A) (s : state) :
  bind (bind m (fun b => ret (Some b)))
       (fun o => match o with Some b => ret b | None => rest end) s
  = m s.
Proof.
  unfold bind, ret. destruct (m s) as [[a|] s1 l1]; simpl;
    rewrite ?app_nil_r; reflexivity.
Qed.

Lemma defers_released {A} (reReader : DiskBufferReader) (body : M A) (s : state) :
  defer (callClose reReader) (defer (callStop reReader) body) s =
  released reReader (body s).
Proof.
  unfold defer, callClose, callStop, invoke, released.
  destruct (body s) as [[a|] s1 l1]; simpl; [|reflexivity].
  rewrite <- app_assoc. reflexivity.
Qed.

End RunFacts2.

(** ** One attempt *)

Section AttemptFacts.
Context `{Ext : Externals}.

(** The ordinary step, from any state. *)
Lemma ordinaryStep_cases (h : Handler) (reReader : DiskBufferReader)
    (chunkSkel : Chunk) (s : state) :
  (exists e w,
     ordinaryStep h reReader chunkSkel s =
     mkRun (Some false) (mkState w (done s) (ticks s))
           [ESeek reReader (Some e); ELogError e "error seeking to start of file"]) \/
  (exists file w,
     ordinaryStep h reReader chunkSkel s =
     mkRun (Some false) (mkState w (done s) (ticks s))
           [ESeek reReader None; EIsFiletype h (as_Reader reReader) file false]) \/
  (exists file chan w,
     ordinaryStep h reReader chunkSkel s =
     prepend [ESeek reReader None; EIsFiletype h (as_Reader reReader) file true;
              EFromFile h (as_Reader reReader) chan]
             (handleChunks chan chunkSkel (mkState w (done s) (ticks s)))).
Proof.
  unfold ordinaryStep, callSeek.
  destruct (Seek reReader (world s)) as [[e|] w1] eqn:Hseek.
  - left. exists e, w1. step_invoke Hseek.
    rewrite bind_logError. reflexivity.
  - right. step_invoke Hseek. unfold callIsFiletype.
    destruct (IsFiletype h (done s) (as_Reader reReader) w1)
      as [[file isType] w2] eqn:Hty.
    step_invoke Hty.
    destruct isType; cbn [negb].
    + right. exists file. unfold callFromFile.
      destruct (FromFile h (done s) (as_Reader reReader) w2) as [chan w3] eqn:Hff.
      exists chan, w3. step_invoke Hff.
      rewrite !prepend_prepend. reflexivity.
    + left. exists file, w2. reflexivity.
Qed.

(** Every run of [processHandler] goes one of the four ways. *)
Lemma processHandler_attempt (h : Handler) (reReader : DiskBufferReader)
    (chunkSkel : Chunk) (s : state) :
  attempt h reReader chunkSkel s (processHandler h reReader chunkSkel s).
Proof.
  unfold processHandler. rewrite defers_released.
  assert (Hord : forall probe w,
    not_special h reReader probe ->
    attempt h reReader chunkSkel s
      (released reReader
         (prepend probe (ordinaryStep h reReader chunkSkel
                           (mkState w (done s) (ticks s)))))).
  { intros probe w Hp.
    destruct (ordinaryStep_cases h reReader chunkSkel (mkState w (done s) (ticks s)))
      as [(e & w' & E) | [(file & w' & E) | (file & chan & w' & E)]];
      rewrite E; cbn [done ticks world].
    - apply attempt_seek_failed; exact Hp.
    - apply attempt_rejected; exact Hp.
    - rewrite prepend_prepend. apply attempt_recognized; exact Hp. }
  unfold specializedStep.
  destruct (specialized h) as [sp|] eqn:Hsp.
  - rewrite bind_assoc. unfold callHandleSpecialized.
    destruct (HandleSpecialized sp (done s) (as_Reader reReader) (world s))
      as [[[file isSpecial] err] w1] eqn:Hhs.
    step_invoke Hhs.
    destruct isSpecial.
    + rewrite bind_assoc. unfold callFromFile.
      destruct (FromFile h (done s) file w1) as [chan w2] eqn:Hff.
      step_invoke Hff.
      rewrite bind_some_back, prepend_prepend. simpl app.
      apply attempt_unwrapped.
    + rewrite bind_assoc. destruct err as [e|].
      * rewrite bind_logError. cbv beta. rewrite bind_ret, prepend_prepend.
        simpl app. apply Hord. apply unrecognized_error.
      * rewrite bind_ret. cbv beta. rewrite bind_ret.
        apply Hord. apply unrecognized.
  - rewrite bind_ret.
    replace s with (mkState (world s) (done s) (ticks s)) at 2
      by (destruct s; reflexivity).
    rewrite <- (prepend_nil (ordinaryStep _ _ _ _)).
    apply Hord. apply no_capability. exact Hsp.
Qed.

Lemma released_returned {A} (reReader : DiskBufferReader) (r : Run A) :
  returned (released reReader r) = returned r.
Proof. unfold released. destruct (returned r) eqn:E; simpl; auto. Qed.

(** The log of an attempt, flattened: what precedes the relay, the chunks
    the relay forwards, and the release of the source once the attempt
    returns. *)
Lemma processHandler_log (h : Handler) (reReader : DiskBufferReader)
    (chunkSkel : Chunk) (s : state) :
  let r := processHandler h reReader chunkSkel s in
  exists (lead : list event) (handlerChan : Chan) (m : nat),
    log r = lead ++ map ESend (chunks_of chunkSkel (firstn m handlerChan))
                 ++ closing reReader (returned r) /\
    m <= length handlerChan /\
    (returned r = Some true -> m = length handlerChan) /\
    ((exists file err,
        lead = [EHandleSpecialized h (as_Reader reReader) file true err;
                EFromFile h file handlerChan]) \/
     (exists probe e,
        not_special h reReader probe /\ m = 0 /\ returned r = Some false /\
        lead = probe ++ [ESeek reReader (Some e);
                         ELogError e "error seeking to start of file"]) \/
     (exists probe file,
        not_special h reReader probe /\ m = 0 /\ returned r = Some false /\
        lead = probe ++ [ESeek reReader None;
                         EIsFiletype h (as_Reader reReader) file false]) \/
     (exists probe file,
        not_special h reReader probe /\
        lead = probe ++ [ESeek reReader None;
                         EIsFiletype h (as_Reader reReader) file true;
                         EFromFile h (as_Reader reReader) handlerChan])).
Proof.
  intros r. subst r.
  destruct (processHandler_attempt h reReader chunkSkel s)
    as [file err chan w | probe e w Hp | probe file w Hp | probe file chan w Hp].
  - destruct (handleChunks_run chan chunkSkel (mkState w (done s) (ticks s)))
      as [m Hle Hlog _ Htrue _ _].
    exists [EHandleSpecialized h (as_Reader reReader) file true err;
            EFromFile h file chan], chan, m.
    rewrite released_prepend. unfold prepend, released, closing.
    destruct (handleChunks chan chunkSkel _) as [[b|] s1 l1];
      simpl in *; subst l1; rewrite ?app_nil_r; eauto 10.
  - exists (probe ++ [ESeek reReader (Some e);
                      ELogError e "error seeking to start of file"]), [], 0.
    simpl. rewrite <- app_assoc. repeat split; auto. right; left. eauto 10.
  - exists (probe ++ [ESeek reReader None;
                      EIsFiletype h (as_Reader reReader) file false]), [], 0.
    simpl. rewrite <- app_assoc. repeat split; auto. right; right; left. eauto 10.
  - destruct (handleChunks_run chan chunkSkel (mkState w (done s) (ticks s)))
      as [m Hle Hlog _ Htrue _ _].
    exists (probe ++ [ESeek reReader None;
                      EIsFiletype h (as_Reader reReader) file true;
                      EFromFile h (as_Reader reReader) chan]), chan, m.
    rewrite released_prepend. unfold prepend, released, closing.
    destruct (handleChunks chan chunkSkel _) as [[b|] s1 l1];
      simpl in *; subst l1; rewrite ?app_nil_r, <- ?app_assoc; simpl;
      repeat split; auto; right; right; right; eauto 10.
Qed.

End AttemptFacts.

Ltac in_inv H :=
  repeat match type of H with
  | In _ (_ ++ _) => apply in_app_or in H; destruct H as [H|H]
  | In _ (_ :: _) => destruct H as [H|H]
  | In _ [] => destruct H
  | In _ (map ESend _) => apply in_map_iff in H; destruct H as (? & H & _)
  | In _ (closing _ ?o) => unfold closing in H; destruct o
  end.

Ltac attempt_paths h reReader chunkSkel s :=
  let lead := fresh "lead" in
  let chan := fresh "chan" in
  let m := fresh "m" in
  let Hlog := fresh "Hlog" in
  let Hle := fresh "Hle" in
  let Htrue := fresh "Htrue" in
  let Hp := fresh "Hp" in
  let Hret := fresh "Hret" in
  destruct (processHandler_log h reReader chunkSkel s)
    as (lead & chan & m & Hlog & Hle & Htrue &
        [(?file & ?err & ->) |
         [(?probe & ?e & Hp & -> & Hret & ->) |
          [(?probe & ?file & Hp & -> & Hret & ->) |
           (?probe & ?file & Hp & ->)]]]);
  let Hcap := fresh "Hcap" in
  try destruct Hp as [Hcap | | ].

Section AttemptTheorems.
Context `{Ext : Externals}.

(** C5. Whenever [HandleSpecialized] of a variant reports the stream as
    recognized, the ordinary [IsFiletype] check is not invoked in that
    attempt, and the producer [FromFile] of that variant is started once, on
    the replacement reader that [HandleSpecialized] returned. *)
Theorem recognized_skips_type_check
    (h : Handler) (reReader : DiskBufferReader) (chunkSkel : Chunk) (s : state)
    (h0 : Handler) (arg file : Reader) (err : option error) :
  let r := processHandler h reReader chunkSkel s in
  In (EHandleSpecialized h0 arg file true err) (log r) ->
  (forall h' arg' file' isType, ~ In (EIsFiletype h' arg' file' isType) (log r)) /\
  (exists handlerChan, In (EFromFile h file handlerChan) (log r)) /\
  (forall h' arg' handlerChan,
     In (EFromFile h' arg' handlerChan) (log r) -> h' = h /\ arg' = file).
Proof.
  intros r Hin. subst r.
  attempt_paths h reReader chunkSkel s;
    rewrite Hlog in Hin |- *; clear Hlog;
    in_inv Hin; try discriminate Hin.
  all: injection Hin; intros; subst; clear Hin.
  all: split; [|split].
  all: try (intros h' arg' file' isType H; in_inv H; discriminate H).
  all: try (eexists; simpl; eauto; fail).
  all: intros h' arg' c H; in_inv H; try discriminate H;
       injection H; intros; subst; split; reflexivity.
Qed.

(** C6. An error returned by [HandleSpecialized] never aborts the attempt.
    Returned together with recognition it is ignored: nothing is logged,
    and the producer is started on the replacement reader and relayed.
    Returned without recognition it is logged, and the attempt goes on to
    rewind the same Rewindable Source and, the rewind succeeding, to run
    the ordinary type check on it. *)
Theorem specialized_error_does_not_abort
    (h : Handler) (reReader : DiskBufferReader) (chunkSkel : Chunk) (s : state)
    (h0 : Handler) (arg file : Reader) (isSpecial : bool) (e : error) :
  let r := processHandler h reReader chunkSkel s in
  In (EHandleSpecialized h0 arg file isSpecial (Some e)) (log r) ->
  if isSpecial then
    (forall e' msg, ~ In (ELogError e' msg) (log r)) /\
    exists handlerChan m,
      log r = EHandleSpecialized h (as_Reader reReader) file true (Some e)
              :: EFromFile h file handlerChan
              :: map ESend (chunks_of chunkSkel (firstn m handlerChan))
              ++ closing reReader (returned r) /\
      m <= length handlerChan /\
      (returned r = Some true -> m = length handlerChan)
  else
    exists serr rest,
      log r = EHandleSpecialized h (as_Reader reReader) file false (Some e)
              :: ELogError e "error handling file"
              :: ESeek reReader serr :: rest /\
      (serr = None ->
       exists file' isType rest',
         rest = EIsFiletype h (as_Reader reReader) file' isType :: rest').
Proof.
  intros r Hin. subst r.
  attempt_paths h reReader chunkSkel s;
    rewrite Hlog in Hin |- *;
    in_inv Hin; try discriminate Hin.
  all: injection Hin; intros; subst; clear Hin.
  - split.
    + intros e' msg H. in_inv H; discriminate H.
    + exists chan, m. repeat split; auto.
  - eexists; eexists; split; [reflexivity|]. intros E; discriminate E.
  - eexists; eexists; split; [reflexivity|]. intros _. eauto.
  - eexists; eexists; split; [reflexivity|]. intros _. eauto.
Qed.

(** C8. On every way out of [processHandler] - the specialized path, a
    failed rewind, a rejecting type check, a relay that ran to the end of
    the producer channel or was cancelled - the Rewindable Source of the
    attempt is stopped and then closed, once each, as the last thing the
    attempt does; nothing stops or closes a source before that, and an
    attempt still waiting in the relay has released nothing. *)
Theorem source_released_once
    (h : Handler) (reReader : DiskBufferReader) (chunkSkel : Chunk) (s : state) :
  let r := processHandler h reReader chunkSkel s in
  exists body,
    (forall d, ~ In (EStop d) body /\ ~ In (EClose d) body) /\
    match returned r with
    | Some _ =>
        log r = body ++ [EStop reReader; EClose reReader] /\
        exists w, world (final r) = Close reReader (Stop reReader w)
    | None => log r = body
    end.
Proof.
  intros r.
  assert (Hw : forall b, returned r = Some b ->
                 exists w, world (final r) = Close reReader (Stop reReader w)).
  { subst r. unfold processHandler. rewrite defers_released.
    unfold released. intros b.
    destruct (returned (bind _ _ s)) eqn:E; simpl; [eauto|].
    rewrite E. discriminate. }
  subst r.
  attempt_paths h reReader chunkSkel s.
  all: match type of Hlog with _ = ?lead ++ ?fw ++ _ => exists (lead ++ fw) end.
  all: split; [intros d; split; intros H; in_inv H; discriminate H|].
  all: rewrite Hlog, app_assoc;
       destruct (returned (processHandler h reReader chunkSkel s)) as [b|];
       simpl closing; rewrite ?app_nil_r; eauto.
Qed.

(** C10. On the ordinary path the reader that [IsFiletype] returns is
    dropped: whenever [IsFiletype] accepts, it was called on the Rewindable
    Source of the attempt, and [FromFile] is started on that same source,
    whatever reader [IsFiletype] returned. *)
Theorem type_check_reader_is_dropped
    (h : Handler) (reReader : DiskBufferReader) (chunkSkel : Chunk) (s : state)
    (h0 : Handler) (arg file : Reader) :
  let r := processHandler h reReader chunkSkel s in
  In (EIsFiletype h0 arg file true) (log r) ->
  h0 = h /\ arg = as_Reader reReader /\
  (exists handlerChan, In (EFromFile h (as_Reader reReader) handlerChan) (log r)) /\
  (forall h' arg' handlerChan,
     In (EFromFile h' arg' handlerChan) (log r) ->
     h' = h /\ arg' = as_Reader reReader).
Proof.
  intros r Hin. subst r.
  attempt_paths h reReader chunkSkel s;
    rewrite Hlog in Hin |- *; clear Hlog;
    in_inv Hin; try discriminate Hin.
  all: injection Hin; intros; subst; clear Hin.
  all: split; [reflexivity|]; split; [reflexivity|]; split.
  all: try (eexists; rewrite !in_app_iff; simpl; eauto 8; fail).
  all: intros h' arg' c H; in_inv H; try discriminate H;
       injection H; intros; subst; split; reflexivity.
Qed.

End AttemptTheorems.

(** ** The dispatch loop *)

Section DispatchFacts.
Context `{Ext : Externals}.

(** A round of the loop either fails to construct the source, or runs
    [processHandler] on the source it constructed. *)
Lemma tryHandler_cases (file : Reader) (chunkSkel : Chunk) (h : Handler) (s : state) :
  (exists e w,
     tryHandler file chunkSkel h s =
     mkRun (Some (Some false)) (mkState w (done s) (ticks s))
           [ENew h; EReaderNew file (inr e);
            ELogError e "error creating reusable reader"]) \/
  (exists reReader w,
     tryHandler file chunkSkel h s =
     prepend [ENew h; EReaderNew file (inl reReader)]
             (verdict (processHandler h reReader chunkSkel
                         (mkState w (done s) (ticks s))))).
Proof.
  unfold tryHandler.
  assert (HNew : (fun (_ : Ctx) w => (tt, New h w)) (done s) (world s)
                 = (tt, New h (world s))) by reflexivity.
  step_invoke HNew.
  destruct (diskbufferreader_New file (New h (world s))) as [[reReader|e] w] eqn:Hnew.
  - right. exists reReader, w. step_invoke Hnew.
    rewrite prepend_prepend. simpl app. f_equal.
    unfold bind, verdict.
    destruct (processHandler h reReader chunkSkel _) as [[[|]|] s1 l1];
      simpl; rewrite ?app_nil_r; reflexivity.
  - left. exists e, w. step_invoke Hnew.
    rewrite bind_logError. reflexivity.
Qed.

Lemma HandleFile_over_cons (h : Handler) (handlers : list Handler) (file : Reader)
    (chunkSkel : Chunk) (s : state) :
  HandleFile_over (h :: handlers) file chunkSkel s =
  let a := tryHandler file chunkSkel h s in
  match returned a with
  | Some (Some b) => mkRun (Some b) (final a) (log a)
  | Some None => prepend (log a) (HandleFile_over handlers file chunkSkel (final a))
  | None => mkRun None (final a) (log a)
  end.
Proof.
  unfold HandleFile_over. cbn [for_range]. unfold bind at 1.
  destruct (tryHandler file chunkSkel h s) as [[[b|]|] s1 l1];
    cbn [returned final log ret prepend]; rewrite ?app_nil_r; reflexivity.
Qed.

Lemma attempts_cons (h : Handler) (handlers : list Handler) (file : Reader)
    (chunkSkel : Chunk) (s : state) :
  attempts (h :: handlers) file chunkSkel s =
  let a := tryHandler file chunkSkel h s in
  match returned a with
  | Some (Some b) => mkRun (Some (Some b)) (final a) (log a)
  | Some None => prepend (log a) (attempts handlers file chunkSkel (final a))
  | None => mkRun None (final a) (log a)
  end.
Proof.
  unfold attempts. cbn [for_range]. rewrite bind_assoc. unfold bind at 1.
  destruct (tryHandler file chunkSkel h s) as [[[b|]|] s1 l1];
    cbn [returned final log]; try reflexivity;
    rewrite bind_ret; cbn [option_map ret prepend returned final log];
    rewrite ?app_nil_r; reflexivity.
Qed.

(** The loop over a list is the rounds over a prefix of it, then, if none
    of them returned, the loop over the rest. *)
Lemma HandleFile_over_app (pre rest : list Handler) (file : Reader)
    (chunkSkel : Chunk) (s : state) :
  HandleFile_over (pre ++ rest) file chunkSkel s =
  let a := attempts pre file chunkSkel s in
  match returned a with
  | Some (Some b) => mkRun (Some b) (final a) (log a)
  | Some None => prepend (log a) (HandleFile_over rest file chunkSkel (final a))
  | None => mkRun None (final a) (log a)
  end.
Proof.
  revert s. induction pre as [|h pre IH]; intros s.
  - simpl. unfold attempts, ret, prepend. simpl.
    destruct (HandleFile_over rest file chunkSkel s); reflexivity.
  - simpl app. rewrite HandleFile_over_cons, attempts_cons.
    destruct (tryHandler file chunkSkel h s) as [[[b|]|] s1 l1]; simpl; auto.
    rewrite IH. simpl.
    destruct (attempts pre file chunkSkel s1) as [[[b|]|] s2 l2]; simpl; auto.
    unfold prepend; simpl. rewrite app_assoc. reflexivity.
Qed.

(** A round whose source is constructed runs [processHandler] on that
    source, in the world its construction left. *)
Lemma tryHandler_source (file : Reader) (chunkSkel : Chunk) (h : Handler) (s : state)
    (reReader : DiskBufferReader) (w : World) :
  diskbufferreader_New file (New h (world s)) = (inl reReader, w) ->
  tryHandler file chunkSkel h s =
  prepend [ENew h; EReaderNew file (inl reReader)]
          (verdict (processHandler h reReader chunkSkel
                      (mkState w (done s) (ticks s)))).
Proof.
  intros Hnew. unfold tryHandler.
  assert (HNew : (fun (_ : Ctx) w => (tt, New h w)) (done s) (world s)
                 = (tt, New h (world s))) by reflexivity.
  step_invoke HNew. step_invoke Hnew.
  rewrite prepend_prepend. cbn [app]. f_equal.
  unfold bind, verdict.
  destruct (processHandler h reReader chunkSkel _) as [[[|]|] s1 l1];
    cbn [returned final log ret option_map]; rewrite ?app_nil_r; reflexivity.
Qed.

(** The log of a round, flattened. *)
Lemma tryHandler_log (file : Reader) (chunkSkel : Chunk) (h : Handler) (s : state) :
  let a := tryHandler file chunkSkel h s in
  (exists e,
     log a = [ENew h; EReaderNew file (inr e);
              ELogError e "error creating reusable reader"] /\
     returned a = Some (Some false)) \/
  (exists reReader s1,
     a = prepend [ENew h; EReaderNew file (inl reReader)]
                 (verdict (processHandler h reReader chunkSkel s1)) /\
     done s1 = done s /\ ticks s1 = ticks s).
Proof.
  intros a. subst a.
  destruct (tryHandler_cases file chunkSkel h s) as [(e & w & E) | (d & w & E)];
    rewrite E.
  - left. exists e. split; reflexivity.
  - right. exists d, (mkState w (done s) (ticks s)). repeat split.
Qed.

End DispatchFacts.

Ltac round_paths file chunkSkel h s :=
  let E := fresh "Eround" in
  let Hret := fresh "Hround" in
  let reReader := fresh "reReader" in
  let s1 := fresh "s1" in
  let Hd := fresh "Hdone" in
  let Ht := fresh "Hticks" in
  destruct (tryHandler_log file chunkSkel h s)
    as [(?e & E & Hret) | (reReader & s1 & E & Hd & Ht)];
  [ | attempt_paths h reReader chunkSkel s1 ].

Ltac accept_inv H :=
  let H' := fresh H in
  destruct H as [(? & ? & ? & H') | (? & ? & H')]; in_inv H'.

Section DispatchTheorems.
Context `{Ext : Externals}.

Lemma sends_closing {A} (reReader : DiskBufferReader) (ret : option A) :
  sends (closing reReader ret) = [].
Proof. destruct ret; reflexivity. Qed.

Lemma sends_not_special (h : Handler) (reReader : DiskBufferReader) (probe : list event) :
  not_special h reReader probe -> sends probe = [].
Proof. intros []; reflexivity. Qed.

(** C7. A failure to rewind the Rewindable Source fails the attempt of that
    variant only: [processHandler] returns [false] right after logging it
    (and releasing the source), nothing has been forwarded, and the loop of
    [HandleFile] goes on with the next registered variant. *)
Theorem seek_failure_moves_on
    (h : Handler) (rest : list Handler) (file : Reader) (chunkSkel : Chunk)
    (s : state) (reReader : DiskBufferReader) (e : error) :
  let a := tryHandler file chunkSkel h s in
  In (ESeek reReader (Some e)) (log a) ->
  (exists s1,
     a = prepend [ENew h; EReaderNew file (inl reReader)]
                 (verdict (processHandler h reReader chunkSkel s1)) /\
     returned (processHandler h reReader chunkSkel s1) = Some false) /\
  (exists t, log a = t ++ [ESeek reReader (Some e);
                           ELogError e "error seeking to start of file";
                           EStop reReader; EClose reReader]) /\
  sends (log a) = [] /\
  returned a = Some None /\
  HandleFile_over (h :: rest) file chunkSkel s =
  prepend (log a) (HandleFile_over rest file chunkSkel (final a)).
Proof.
  intros a Hin. subst a.
  rewrite HandleFile_over_cons. cbv zeta.
  round_paths file chunkSkel h s.
  { rewrite Eround in Hin. in_inv Hin; discriminate Hin. }
  all: rewrite Eround in Hin |- *; unfold prepend, verdict in Hin |- *;
       cbn [log returned final] in Hin |- *;
       rewrite Hlog in Hin |- *; in_inv Hin; try discriminate Hin.
  all: injection Hin; intros; subst; clear Hin.
  all: rewrite Hret; cbn [option_map closing app].
  all: repeat split; try reflexivity.
  all: try (exists s1; unfold prepend, verdict; rewrite Hlog, Hret; split; reflexivity).
  all: cbn [app]; rewrite ?app_nil_r.
  all: first [ refine (ex_intro _ [_; _] _); reflexivity
             | refine (ex_intro _ [_; _; _] _); reflexivity
             | refine (ex_intro _ [_; _; _; _] _); reflexivity ].
Qed.

Lemma round_outcomes (file : Reader) (chunkSkel : Chunk) (h : Handler) (s : state) :
  let a := tryHandler file chunkSkel h s in
  (quiet a /\ returned a <> Some (Some true)) \/
  (relayed h chunkSkel (returned a = Some (Some true)) a /\
   returned a <> Some (Some false)).
Proof.
  intros a. subst a. unfold quiet, relayed.
  round_paths file chunkSkel h s.
  { left. rewrite Eround, Hround. repeat split; try discriminate.
    intros h' Hacc. accept_inv Hacc; discriminate. }
  all: rewrite Eround; unfold prepend, verdict; cbn [log returned final];
       rewrite Hlog.
  all: try (left; rewrite Hret; cbn [option_map closing firstn chunks_of map app];
            repeat split; try discriminate;
            intros h' Hacc; accept_inv Hacc; discriminate).
  all: right; split;
       [| destruct (returned (processHandler h reReader chunkSkel s1)) as [[|]|];
          discriminate ].
  all: split; [|split].
  all: try (intros h' Hacc; accept_inv Hacc; try discriminate;
            match goal with H : _ = _ |- _ => injection H; intros; subst; reflexivity end).
  all: try (left; eexists; eexists; eexists; cbn [app]; rewrite ?in_app_iff;
            simpl; eauto 8; fail).
  all: try (right; eexists; eexists; cbn [app]; rewrite ?in_app_iff;
            simpl; eauto 8; fail).
  - exists [ENew h; EReaderNew file (inl reReader);
            EHandleSpecialized h (as_Reader reReader) file0 true err],
           file0, chan, m, (closing reReader (returned (processHandler h reReader chunkSkel s1))).
    repeat split; auto using sends_closing.
    intros E. apply Htrue.
    destruct (returned (processHandler h reReader chunkSkel s1)) as [[|]|];
      try discriminate; reflexivity.
  - exists [ENew h; EReaderNew file (inl reReader); ESeek reReader None;
            EIsFiletype h (as_Reader reReader) file0 true],
           (as_Reader reReader), chan, m,
           (closing reReader (returned (processHandler h reReader chunkSkel s1))).
    repeat split; auto using sends_closing.
    intros E. apply Htrue.
    destruct (returned (processHandler h reReader chunkSkel s1)) as [[|]|];
      try discriminate; reflexivity.
  - exists [ENew h; EReaderNew file (inl reReader);
            EHandleSpecialized h (as_Reader reReader) file1 false None;
            ESeek reReader None;
            EIsFiletype h (as_Reader reReader) file0 true],
           (as_Reader reReader), chan, m,
           (closing reReader (returned (processHandler h reReader chunkSkel s1))).
    repeat split; auto using sends_closing.
    intros E. apply Htrue.
    destruct (returned (processHandler h reReader chunkSkel s1)) as [[|]|];
      try discriminate; reflexivity.
  - exists [ENew h; EReaderNew file (inl reReader);
            EHandleSpecialized h (as_Reader reReader) file1 false (Some e);
            ELogError e "error handling file";
            ESeek reReader None;
            EIsFiletype h (as_Reader reReader) file0 true],
           (as_Reader reReader), chan, m,
           (closing reReader (returned (processHandler h reReader chunkSkel s1))).
    repeat split; auto using sends_closing.
    intros E. apply Htrue.
    destruct (returned (processHandler h reReader chunkSkel s1)) as [[|]|];
      try discriminate; reflexivity.
Qed.

Lemma accepted_by_app (h : Handler) (t1 t2 : list event) :
  accepted_by h (t1 ++ t2) <-> accepted_by h t1 \/ accepted_by h t2.
Proof.
  unfold accepted_by. split.
  - intros [(a & f & e & H) | (a & f & H)]; apply in_app_or in H;
      destruct H as [H|H]; eauto 8.
  - intros [[(a & f & e & H) | (a & f & H)] | [(a & f & e & H) | (a & f & H)]];
      [left | right | left | right]; repeat eexists; apply in_or_app; eauto.
Qed.

Lemma not_accepted_nil (h : Handler) : ~ accepted_by h [].
Proof. intros [(a & f & e & H) | (a & f & H)]; destruct H. Qed.

(** How the log and the result of the loop are made of those of its first
    round and of the loop over the other handlers. *)
Lemma HandleFile_over_split (h : Handler) (handlers : list Handler) (file : Reader)
    (chunkSkel : Chunk) (s : state) :
  let a := tryHandler file chunkSkel h s in
  let r := HandleFile_over (h :: handlers) file chunkSkel s in
  (returned a = Some None /\
   r = prepend (log a) (HandleFile_over handlers file chunkSkel (final a))) \/
  (returned a <> Some None /\ log r = log a /\
   (returned r = Some true <-> returned a = Some (Some true)) /\
   (returned r = Some false <-> returned a = Some (Some false))).
Proof.
  cbv zeta. rewrite HandleFile_over_cons. cbv zeta.
  destruct (tryHandler file chunkSkel h s) as [[[[|]|]|] s1 l1]; cbn [returned log final].
  - right. repeat split; congruence.
  - right. repeat split; congruence.
  - left. split; reflexivity.
  - right. repeat split; congruence.
Qed.

(** The loop forwards nothing and does not return [true] unless some
    variant accepts. *)
Lemma HandleFile_over_quiet (handlers : list Handler) (file : Reader)
    (chunkSkel : Chunk) (s : state) :
  let r := HandleFile_over handlers file chunkSkel s in
  (forall h', ~ accepted_by h' (log r)) ->
  sends (log r) = [] /\ returned r <> Some true.
Proof.
  revert s. induction handlers as [|h handlers IH]; intros s r Hno; subst r.
  - split; [reflexivity | discriminate].
  - destruct (HandleFile_over_split h handlers file chunkSkel s)
      as [[Ea Er] | (Ea & El & Et & Ef)].
    + rewrite Er in Hno |- *. unfold prepend in Hno |- *.
      cbn [log returned] in Hno |- *. rewrite sends_app.
      destruct (round_outcomes file chunkSkel h s) as [[[_ Hq] _] | [[Hacc _] _]].
      * destruct (IH (final (tryHandler file chunkSkel h s))) as [Hs Hr].
        { intros h' H. apply (Hno h'). apply accepted_by_app. right. exact H. }
        rewrite Hq, Hs. split; [reflexivity | exact Hr].
      * exfalso. apply (Hno h). apply accepted_by_app. left. exact Hacc.
    + rewrite El in Hno |- *.
      destruct (round_outcomes file chunkSkel h s) as [[[_ Hq] Hn] | [[Hacc _] _]].
      * split; [exact Hq|]. intros E. apply Hn. apply Et. exact E.
      * exfalso. apply (Hno h). exact Hacc.
Qed.

(** Only registered variants accept. *)
Lemma HandleFile_over_accepting (handlers : list Handler) (file : Reader)
    (chunkSkel : Chunk) (s : state) (h' : Handler) :
  accepted_by h' (log (HandleFile_over handlers file chunkSkel s)) ->
  In h' handlers.
Proof.
  revert s. induction handlers as [|h handlers IH]; intros s Hacc.
  - exfalso. exact (not_accepted_nil h' Hacc).
  - assert (Hhead : accepted_by h' (log (tryHandler file chunkSkel h s)) -> h' = h).
    { intros H.
      destruct (round_outcomes file chunkSkel h s) as [[[Hq _] _] | [[_ [Hu _]] _]].
      - exfalso. exact (Hq h' H).
      - exact (Hu h' H). }
    destruct (HandleFile_over_split h handlers file chunkSkel s)
      as [[Ea Er] | (Ea & El & _)].
    + rewrite Er in Hacc. unfold prepend in Hacc. cbn [log] in Hacc.
      apply accepted_by_app in Hacc. destruct Hacc as [H|H].
      * left. symmetry. exact (Hhead H).
      * right. exact (IH _ H).
    + rewrite El in Hacc. left. symmetry. exact (Hhead Hacc).
Qed.

Lemma attempts_fall_through (h : Handler) (pre : list Handler) (file : Reader)
    (chunkSkel : Chunk) (s : state) :
  returned (tryHandler file chunkSkel h s) = Some None ->
  attempts (h :: pre) file chunkSkel s =
  prepend (log (tryHandler file chunkSkel h s))
          (attempts pre file chunkSkel (final (tryHandler file chunkSkel h s))).
Proof. intros E. rewrite attempts_cons. cbv zeta. rewrite E. reflexivity. Qed.

(** The log of a call in which exactly one variant accepts. *)
Lemma accepting_variant_log
    (handlers : list Handler) (file : Reader) (chunkSkel : Chunk) (s : state)
    (h : Handler) :
  NoDup handlers ->
  let r := HandleFile_over handlers file chunkSkel s in
  accepted_by h (log r) ->
  (forall h', accepted_by h' (log r) -> h' = h) ->
  exists pre post,
    handlers = pre ++ h :: post /\
    returned (attempts pre file chunkSkel s) = Some None /\
    sends (log (attempts pre file chunkSkel s)) = [] /\
    exists before arg handlerChan m after,
      log r = log (attempts pre file chunkSkel s) ++ before
              ++ EFromFile h arg handlerChan
              :: map ESend (chunks_of chunkSkel (firstn m handlerChan)) ++ after /\
      sends before = [] /\ sends after = [] /\
      m <= length handlerChan /\
      (returned r = Some true -> m = length handlerChan) /\
      sends (log r) = chunks_of chunkSkel (firstn m handlerChan).
Proof.
  revert s. induction handlers as [|h0 handlers IH]; intros s Hnd r Hacc Huniq; subst r.
  - exfalso. exact (not_accepted_nil h Hacc).
  - inversion Hnd as [|x l Hnotin Hnd']; subst x l.
    destruct (round_outcomes file chunkSkel h0 s)
      as [[[Hq Hsq] Hnt] | [(Hacc0 & Hu0 & before & arg & chan & m & after &
                              Hlog & Hsb & Hsa & Hle & Hfull) Hnf]].
    + (* the first variant did not accept *)
      destruct (HandleFile_over_split h0 handlers file chunkSkel s)
        as [[Ea Er] | (Ea & El & _)].
      2:{ exfalso. rewrite El in Hacc. exact (Hq h Hacc). }
      rewrite Er in Hacc, Huniq |- *. unfold prepend in Hacc, Huniq |- *.
      cbn [log returned] in Hacc, Huniq |- *.
      apply accepted_by_app in Hacc. destruct Hacc as [Hacc|Hacc];
        [exfalso; exact (Hq h Hacc)|].
      destruct (IH (final (tryHandler file chunkSkel h0 s)) Hnd' Hacc)
        as (pre & post & Hhs & Hret & Hsp & before & arg & chan & m & after &
            Hlog & Hsb & Hsa & Hle & Hfull & Hsends).
      { intros h' H. apply Huniq. apply accepted_by_app. right. exact H. }
      exists (h0 :: pre), post.
      rewrite (attempts_fall_through h0 pre file chunkSkel s Ea).
      unfold prepend. cbn [log returned].
      split; [simpl; congruence|]. split; [exact Hret|].
      split; [rewrite sends_app, Hsq, Hsp; reflexivity|].
      exists before, arg, chan, m, after.
      rewrite Hlog, !sends_app, Hsq, <- !app_assoc.
      rewrite Hlog, !sends_app in Hsends.
      repeat split; auto.
    + (* the first variant accepted: it is [h] *)
      assert (Hlogr : exists tail,
                log (HandleFile_over (h0 :: handlers) file chunkSkel s) =
                log (tryHandler file chunkSkel h0 s) ++ tail /\
                sends tail = [] /\
                (returned (HandleFile_over (h0 :: handlers) file chunkSkel s) = Some true ->
                 returned (tryHandler file chunkSkel h0 s) = Some (Some true))).
      { destruct (HandleFile_over_split h0 handlers file chunkSkel s)
          as [[Ea Er] | (Ea & El & Et & _)].
        - exists (log (HandleFile_over handlers file chunkSkel
                         (final (tryHandler file chunkSkel h0 s)))).
          rewrite Er in Huniq |- *. unfold prepend in Huniq |- *.
          cbn [log returned] in Huniq |- *.
          split; [reflexivity|].
          destruct (HandleFile_over_quiet handlers file chunkSkel
                      (final (tryHandler file chunkSkel h0 s))) as [Hs Hr].
          { intros h' H.
            assert (h' = h) by (apply Huniq, accepted_by_app; right; exact H).
            assert (h0 = h) by (apply Huniq, accepted_by_app; left; exact Hacc0).
            apply Hnotin. subst h' h0.
            exact (HandleFile_over_accepting handlers file chunkSkel _ h H). }
          split; [exact Hs|]. intros E. exfalso. exact (Hr E).
        - exists []. rewrite El, app_nil_r. split; [reflexivity|].
          split; [reflexivity|]. apply Et. }
      destruct Hlogr as (tail & Hlogr & Hst & Htr).
      assert (h0 = h).
      { apply Huniq. rewrite Hlogr. apply accepted_by_app. left. exact Hacc0. }
      subst h0.
      exists [], handlers. cbn [app]. unfold attempts. cbn [for_range ret log returned app].
      repeat split.
      exists before, arg, chan, m, (after ++ tail).
      rewrite Hlogr, Hlog, !sends_app. cbn [sends]. rewrite !sends_app.
      rewrite sends_map_ESend, Hsb, Hsa, Hst, !app_nil_r, <- !app_assoc.
      cbn [app]. repeat split; auto.
      rewrite <- app_assoc. reflexivity.
Qed.

Lemma released_log {A} (reReader : DiskBufferReader) (r : Run A) :
  log (released reReader r) = log r ++ closing reReader (returned r) /\
  returned (released reReader r) = returned r /\
  ticks (final (released reReader r)) = ticks (final r) /\
  done (final (released reReader r)) = done (final r).
Proof.
  unfold released, closing. destruct (returned r) eqn:E; cbn [log returned final ticks done].
  - repeat split.
  - rewrite app_nil_r, E. repeat split.
Qed.

(** A round in which no variant accepts does not get to the relay: it
    leaves the schedule and the cancellation as they were. *)
Lemma quiet_round_frame (file : Reader) (chunkSkel : Chunk) (h : Handler) (s : state) :
  let a := tryHandler file chunkSkel h s in
  (forall h', ~ accepted_by h' (log a)) ->
  ticks (final a) = ticks s /\ done (final a) = done s.
Proof.
  intros a Hno. subst a.
  destruct (tryHandler_cases file chunkSkel h s) as [(e & w & E) | (d & w & E)];
    rewrite E in Hno |- *; [split; reflexivity|].
  unfold prepend, verdict in Hno |- *. cbn [log final] in Hno |- *.
  destruct (processHandler_attempt h d chunkSkel (mkState w (done s) (ticks s)))
    as [f err chan w1 | probe e w1 Hp | probe f w1 Hp | probe f chan w1 Hp].
  - exfalso. apply (Hno h). left. exists (as_Reader d), f, err.
    destruct (released_log d
                (prepend [EHandleSpecialized h (as_Reader d) f true err;
                          EFromFile h f chan]
                   (handleChunks chan chunkSkel
                      (mkState w1 (done (mkState w (done s) (ticks s)))
                               (ticks (mkState w (done s) (ticks s)))))))
      as (El & _).
    rewrite El. unfold prepend. cbn [log app]. right. right. left. reflexivity.
  - destruct (released_log d
                (mkRun (Some false)
                   (mkState w1 (done (mkState w (done s) (ticks s)))
                            (ticks (mkState w (done s) (ticks s))))
                   (probe ++ [ESeek d (Some e);
                              ELogError e "error seeking to start of file"])))
      as (_ & _ & Et & Ed).
    rewrite Et, Ed. split; reflexivity.
  - destruct (released_log d
                (mkRun (Some false)
                   (mkState w1 (done (mkState w (done s) (ticks s)))
                            (ticks (mkState w (done s) (ticks s))))
                   (probe ++ [ESeek d None;
                              EIsFiletype h (as_Reader d) f false])))
      as (_ & _ & Et & Ed).
    rewrite Et, Ed. split; reflexivity.
  - exfalso. apply (Hno h). right. exists (as_Reader d), f.
    destruct (released_log d
                (prepend (probe ++ [ESeek d None;
                                    EIsFiletype h (as_Reader d) f true;
                                    EFromFile h (as_Reader d) chan])
                   (handleChunks chan chunkSkel
                      (mkState w1 (done (mkState w (done s) (ticks s)))
                               (ticks (mkState w (done s) (ticks s)))))))
      as (El & _).
    rewrite El. unfold prepend. cbn [log app]. right. right.
    apply in_or_app. left. apply in_or_app. left. apply in_or_app. right.
    right. left. reflexivity.
Qed.

(** A round that gets to its relay with the context never cancelled, and in
    which the channel operations of the relay proceed, returns [true]. *)
Lemma relayed_round_completes (file : Reader) (chunkSkel : Chunk) (h : Handler)
    (s : state) (h0 : Handler) (arg : Reader) (handlerChan : Chan) :
  let a := tryHandler file chunkSkel h s in
  done s = false ->
  ~ In Cancel (ticks s) ->
  In (EFromFile h0 arg handlerChan) (log a) ->
  2 * length handlerChan + 1 <= comms (ticks s) ->
  returned a = Some (Some true).
Proof.
  intros a Hd Hno Hin Hc. subst a.
  destruct (tryHandler_cases file chunkSkel h s) as [(e & w & E) | (d & w & E)];
    rewrite E in Hin |- *.
  { exfalso. cbn [log] in Hin. in_inv Hin; discriminate Hin. }
  unfold prepend, verdict in Hin |- *. cbn [log returned] in Hin |- *.
  assert (Hrelay : forall w1,
            returned (handleChunks handlerChan chunkSkel
                        (mkState w1 (done s) (ticks s))) = Some true).
  { intros w1. unfold handleChunks. cbn [ticks world done]. rewrite Hd.
    destruct (never_cancelled_run chunkSkel w1 (ticks s) Hno) as [Hr _].
    exact (proj1 (Hr handlerChan Hc)). }
  destruct (processHandler_attempt h d chunkSkel (mkState w (done s) (ticks s)))
    as [f err chan w1 | probe e w1 Hp | probe f w1 Hp | probe f chan w1 Hp];
    cbn [done ticks] in Hin |- *.
  - assert (chan = handlerChan).
    { rewrite released_prepend in Hin. unfold prepend, released in Hin.
      destruct (handleChunks_run chan chunkSkel (mkState w1 (done s) (ticks s)))
        as [m _ Hl _ _ _ _].
      destruct (returned (handleChunks chan chunkSkel _));
        cbn [log] in Hin; rewrite Hl in Hin; in_inv Hin; try discriminate Hin;
        injection Hin; intros; subst; reflexivity. }
    subst chan. rewrite released_prepend. unfold prepend, released.
    rewrite (Hrelay w1). reflexivity.
  - exfalso. unfold released in Hin. cbn [returned log] in Hin.
    destruct Hp; in_inv Hin; discriminate Hin.
  - exfalso. unfold released in Hin. cbn [returned log] in Hin.
    destruct Hp; in_inv Hin; discriminate Hin.
  - assert (chan = handlerChan).
    { rewrite released_prepend in Hin. unfold prepend, released in Hin.
      destruct (handleChunks_run chan chunkSkel (mkState w1 (done s) (ticks s)))
        as [m _ Hl _ _ _ _].
      destruct Hp;
      destruct (returned (handleChunks chan chunkSkel _));
        cbn [log] in Hin; rewrite Hl in Hin; in_inv Hin; try discriminate Hin;
        injection Hin; intros; subst; reflexivity. }
    subst chan. rewrite released_prepend. unfold prepend, released.
    rewrite (Hrelay w1). reflexivity.
Qed.

(** With the context never cancelled and the channel operations of every
    producer started allowed to proceed, a call in which a variant accepts
    returns [true]. *)
Lemma accepting_call_completes
    (handlers : list Handler) (file : Reader) (chunkSkel : Chunk) (s : state) :
  let r := HandleFile_over handlers file chunkSkel s in
  done s = false ->
  ~ In Cancel (ticks s) ->
  (forall h0 arg c, In (EFromFile h0 arg c) (log r) ->
                    2 * length c + 1 <= comms (ticks s)) ->
  (exists h', accepted_by h' (log r)) ->
  returned r = Some true.
Proof.
  revert s. induction handlers as [|h handlers IH]; intros s r Hd Hno Hc [h' Hacc];
    subst r.
  - exfalso. exact (not_accepted_nil h' Hacc).
  - assert (Hprefix : forall e, In e (log (tryHandler file chunkSkel h s)) ->
                                In e (log (HandleFile_over (h :: handlers) file chunkSkel s))).
    { intros e He.
      destruct (HandleFile_over_split h handlers file chunkSkel s)
        as [[_ Er] | (_ & El & _)].
      - rewrite Er. unfold prepend. cbn [log]. apply in_or_app. left. exact He.
      - rewrite El. exact He. }
    destruct (round_outcomes file chunkSkel h s)
      as [[[Hq _] _] | [(_ & _ & before & arg & chan & m & after & Hlog & _) _]].
    + destruct (quiet_round_frame file chunkSkel h s Hq) as [Et Ed].
      destruct (HandleFile_over_split h handlers file chunkSkel s)
        as [[Ea Er] | (Ea & El & _)].
      * rewrite Er in Hc, Hacc |- *. unfold prepend in Hc, Hacc |- *.
        cbn [log returned] in Hc, Hacc |- *.
        apply IH.
        -- rewrite Ed. exact Hd.
        -- rewrite Et. exact Hno.
        -- intros h0 a c Hin. rewrite Et. apply (Hc h0 a c).
           apply in_or_app. right. exact Hin.
        -- apply accepted_by_app in Hacc. destruct Hacc as [H|H];
             [exfalso; exact (Hq h' H) | exists h'; exact H].
      * exfalso. rewrite El in Hacc. exact (Hq h' Hacc).
    + assert (Hin : In (EFromFile h arg chan) (log (tryHandler file chunkSkel h s))).
      { rewrite Hlog. apply in_or_app. right. left. reflexivity. }
      assert (Hret : returned (tryHandler file chunkSkel h s) = Some (Some true)).
      { apply (relayed_round_completes file chunkSkel h s h arg chan Hd Hno Hin).
        apply (Hc h arg chan). apply Hprefix. exact Hin. }
      destruct (HandleFile_over_split h handlers file chunkSkel s)
        as [[Ea _] | (_ & _ & Et & _)].
      * rewrite Hret in Ea. discriminate Ea.
      * apply Et. exact Hret.
Qed.

(** C1, as the code has it.  In a dispatch call over any list of distinct
    registered variants in which exactly one variant [h] accepts the stream
    (by its specialized path or by its ordinary type check), the chunks
    forwarded to the output channel are chunks of the producer of [h] and
    of no other: the rounds of the variants registered before [h] forward
    nothing, then the first m payloads of the producer of [h] are forwarded
    in order, each as the template with that payload as its data, and
    nothing is forwarded after that.  All of them are forwarded when the
    call returns [true], which it does whenever the context is never
    cancelled and the channel operations of the relay proceed; a relay
    cancelled part-way leaves the later payloads unforwarded. *)
Theorem only_the_accepting_variant_is_forwarded
    (handlers : list Handler) (file : Reader) (chunkSkel : Chunk) (s : state)
    (h : Handler) :
  NoDup handlers ->
  let r := HandleFile_over handlers file chunkSkel s in
  accepted_by h (log r) ->
  (forall h', accepted_by h' (log r) -> h' = h) ->
  exists pre post,
    handlers = pre ++ h :: post /\
    returned (attempts pre file chunkSkel s) = Some None /\
    sends (log (attempts pre file chunkSkel s)) = [] /\
    exists before arg handlerChan m after,
      log r = log (attempts pre file chunkSkel s) ++ before
              ++ EFromFile h arg handlerChan
              :: map ESend (sends (log r)) ++ after /\
      sends before = [] /\ sends after = [] /\
      m <= length handlerChan /\
      map Data (sends (log r)) = firstn m handlerChan /\
      (forall chunk, In chunk (sends (log r)) -> Meta chunk = Meta chunkSkel) /\
      (returned r = Some true -> map Data (sends (log r)) = handlerChan) /\
      (done s = false ->
       ~ In Cancel (ticks s) ->
       (forall h0 a c, In (EFromFile h0 a c) (log r) ->
                       2 * length c + 1 <= comms (ticks s)) ->
       returned r = Some true /\ map Data (sends (log r)) = handlerChan).
Proof.
  intros Hnd r Hacc Huniq.
  destruct (accepting_variant_log handlers file chunkSkel s h Hnd Hacc Huniq)
    as (pre & post & Hhs & Hret & Hsp & before & arg & chan & m & after &
        Hlog & Hsb & Hsa & Hle & Hfull & Hsends).
  exists pre, post. split; [exact Hhs|]. split; [exact Hret|]. split; [exact Hsp|].
  exists before, arg, chan, m, after. fold r in Hlog, Hsends, Hfull.
  assert (Hdata : map Data (sends (log r)) = firstn m chan).
  { rewrite Hsends. apply Data_with_Data. }
  assert (Hall : returned r = Some true -> map Data (sends (log r)) = chan).
  { intros E. rewrite Hdata, (Hfull E). apply firstn_all. }
  split; [rewrite Hsends; exact Hlog|].
  split; [exact Hsb|]. split; [exact Hsa|]. split; [exact Hle|].
  split; [exact Hdata|].
  split; [rewrite Hsends; apply Meta_with_Data|].
  split; [exact Hall|].
  intros Hd Hno Hc.
  assert (E : returned r = Some true).
  { apply (accepting_call_completes handlers file chunkSkel s Hd Hno Hc).
    exists h. exact Hacc. }
  split; [exact E | exact (Hall E)].
Qed.

Lemma no_source_made_in_attempt (h : Handler) (reReader : DiskBufferReader)
    (chunkSkel : Chunk) (s : state) (f : Reader) (res : DiskBufferReader + error) :
  ~ In (EReaderNew f res) (log (processHandler h reReader chunkSkel s)).
Proof.
  intros Hin.
  attempt_paths h reReader chunkSkel s; rewrite Hlog in Hin;
    in_inv Hin; discriminate Hin.
Qed.

(** A round that logs a failed construction is nothing but that failure. *)
Lemma round_source_failure (file : Reader) (chunkSkel : Chunk) (h : Handler)
    (s : state) (f : Reader) (e : error) :
  let a := tryHandler file chunkSkel h s in
  In (EReaderNew f (inr e)) (log a) ->
  log a = [ENew h; EReaderNew file (inr e);
           ELogError e "error creating reusable reader"] /\
  returned a = Some (Some false).
Proof.
  intros a Hin. subst a.
  destruct (tryHandler_log file chunkSkel h s)
    as [(e0 & E & Hret) | (reReader & s1 & E & _ & _)].
  - rewrite E in Hin |- *. in_inv Hin; try discriminate Hin.
    injection Hin; intros; subst. split; [reflexivity | exact Hret].
  - exfalso. rewrite E in Hin. unfold prepend, verdict in Hin. cbn [log] in Hin.
    in_inv Hin; try discriminate Hin.
    exact (no_source_made_in_attempt h reReader chunkSkel s1 f (inr e) Hin).
Qed.

(** X17. On the loop over any handler list: if constructing the Rewindable
    Source fails in the round of some variant, the call returns [false]
    there and then: the failure and its log line are the last things the
    call does, so no further variant is tried and nothing more is
    forwarded.  What the call has forwarded is what the rounds before the
    failing one forwarded: nothing when the failing round is the first
    one, and nothing when no earlier variant accepted the stream. *)
Theorem source_failure_aborts_call
    (handlers : list Handler) (file : Reader) (chunkSkel : Chunk) (s : state)
    (f : Reader) (e : error) :
  let r := HandleFile_over handlers file chunkSkel s in
  In (EReaderNew f (inr e)) (log r) ->
  returned r = Some false /\
  exists pre h post,
    handlers = pre ++ h :: post /\
    returned (attempts pre file chunkSkel s) = Some None /\
    log r = log (attempts pre file chunkSkel s)
            ++ [ENew h; EReaderNew file (inr e);
                ELogError e "error creating reusable reader"] /\
    sends (log r) = sends (log (attempts pre file chunkSkel s)) /\
    (pre = [] -> sends (log r) = []) /\
    ((forall h', ~ accepted_by h' (log (attempts pre file chunkSkel s))) ->
     sends (log r) = []).
Proof.
  revert s. induction handlers as [|h0 handlers IH]; intros s r Hin; subst r.
  - destruct Hin.
  - destruct (HandleFile_over_split h0 handlers file chunkSkel s)
      as [[Ea Er] | (Ea & El & _ & Ef)].
    + rewrite Er in Hin |- *. unfold prepend in Hin |- *. cbn [log returned] in Hin |- *.
      apply in_app_or in Hin. destruct Hin as [Hin|Hin].
      { exfalso.
        destruct (round_source_failure file chunkSkel h0 s f e Hin) as [_ E].
        congruence. }
      destruct (IH _ Hin) as (Hret & pre & h & post & Hhs & Hpre & Hlog & Hs & _ & Hq).
      split; [exact Hret|].
      exists (h0 :: pre), h, post.
      rewrite (attempts_fall_through h0 pre file chunkSkel s Ea).
      unfold prepend. cbn [log returned].
      split; [simpl; congruence|]. split; [exact Hpre|].
      split; [rewrite Hlog, <- app_assoc; reflexivity|].
      split; [rewrite !sends_app, Hs; reflexivity|].
      split; [discriminate|].
      intros Hno. rewrite sends_app.
      destruct (round_outcomes file chunkSkel h0 s) as [[[_ Hsq] _] | [[Hacc _] _]].
      * rewrite Hsq. apply Hq. intros h' H. apply (Hno h').
        apply accepted_by_app. right. exact H.
      * exfalso. apply (Hno h0). apply accepted_by_app. left. exact Hacc.
    + rewrite El in Hin |- *.
      destruct (round_source_failure file chunkSkel h0 s f e Hin) as [Hlog Hret].
      split; [apply Ef; exact Hret|].
      exists [], h0, handlers. unfold attempts. cbn [for_range ret log returned app].
      rewrite Hlog. repeat split.
Qed.

(** The call over the default handler list is the one round of [Archive]. *)
Lemma HandleFile_round (Archive : Handler) (file : Reader) (chunkSkel : Chunk) (s : state) :
  let a := tryHandler file chunkSkel Archive s in
  let r := HandleFile Archive file chunkSkel s in
  log r = log a /\
  returned r = match returned a with
               | Some (Some b) => Some b
               | Some None => Some false
               | None => None
               end.
Proof.
  cbv zeta. unfold HandleFile, DefaultHandlers. rewrite HandleFile_over_cons. cbv zeta.
  destruct (tryHandler file chunkSkel Archive s) as [[[b|]|] s1 l1];
    cbn [returned log final]; try (split; reflexivity).
  unfold HandleFile_over, prepend, ret. cbn [for_range log returned].
  rewrite app_nil_r. split; reflexivity.
Qed.

(** C4. If constructing the Rewindable Source fails, [HandleFile] returns
    [false] immediately: the call consists of the reset of the handler, the
    failed construction and its log line, so no further handler is tried
    and nothing is forwarded to the output channel. *)
Theorem source_failure_fails_HandleFile
    (Archive : Handler) (file : Reader) (chunkSkel : Chunk) (s : state)
    (f : Reader) (e : error) :
  let r := HandleFile Archive file chunkSkel s in
  In (EReaderNew f (inr e)) (log r) ->
  returned r = Some false /\
  sends (log r) = [] /\
  log r = [ENew Archive; EReaderNew file (inr e);
           ELogError e "error creating reusable reader"] /\
  (forall h' arg handlerChan, ~ In (EFromFile h' arg handlerChan) (log r)).
Proof.
  intros r Hin. subst r.
  destruct (HandleFile_round Archive file chunkSkel s) as [El Er].
  rewrite El in Hin |- *. rewrite Er.
  destruct (round_source_failure file chunkSkel Archive s f e Hin) as [Hlog Hret].
  rewrite Hlog, Hret. repeat split.
  intros h' arg c H. in_inv H; discriminate H.
Qed.

(** C3, as the code has it.  Let the context be cancelled after M of the N
    payloads of the producer have been forwarded, M < N.  Whatever the
    scheduler does then, the chunks forwarded by the end of the run are
    those of the first m payloads, in order, for some M <= m <= N, and
    [handleChunks] returns [false] only by a [select] taking its
    cancellation case, which ends the run: nothing is forwarded after it.
    If the first [select] resolved after the cancellation takes the
    cancellation case, [handleChunks] returns [false] with exactly the M
    chunks forwarded, and so does the dispatch call [HandleFile] whose
    handler produced these payloads.  ([select] may as well take a receive
    or a send that can proceed: m > M and a [true] result are possible.) *)
Theorem cancellation_stops_the_relay
    (handlerChan : Chan) (chunkSkel : Chunk) (forwardedBefore : nat) :
  forwardedBefore < length handlerChan ->
  (forall (rest : list tick) (s : state),
     ticks s = rounds forwardedBefore ++ Cancel :: rest ->
     let r := handleChunks handlerChan chunkSkel s in
     (exists m, forwardedBefore <= m <= length handlerChan /\
                log r = map ESend (chunks_of chunkSkel (firstn m handlerChan)) /\
                (returned r = Some true -> m = length handlerChan)) /\
     (returned r = Some false ->
        exists before, rest = before ++ Done :: ticks (final r)) /\
     (forall rest', rest = Done :: rest' ->
        returned r = Some false /\
        sends (log r) = chunks_of chunkSkel (firstn forwardedBefore handlerChan) /\
        ticks (final r) = rest')) /\
  (forall (Archive : Handler) (file arg : Reader) (rest' : list tick) (s : state),
     ticks s = rounds forwardedBefore ++ Cancel :: Done :: rest' ->
     let r := HandleFile Archive file chunkSkel s in
     In (EFromFile Archive arg handlerChan) (log r) ->
     returned r = Some false /\
     sends (log r) = chunks_of chunkSkel (firstn forwardedBefore handlerChan)).
Proof.
  intros HM. split.
  - intros rest s Ht r. subst r.
    destruct (relay_after_cancel handlerChan chunkSkel forwardedBefore rest s HM Ht)
      as (H1 & H2 & H3).
    split; [exact H1|]. split; [exact H2|].
    intros rest' E. destruct (H3 rest' E) as (Hr & Hl & Hk).
    split; [exact Hr|]. split; [|exact Hk].
    rewrite Hl. apply sends_map_ESend.
  - intros Archive file arg rest' s Ht r Hin. subst r.
    destruct (HandleFile_round Archive file chunkSkel s) as [El Er].
    rewrite El in Hin |- *. rewrite Er. clear El Er.
    destruct (tryHandler_log file chunkSkel Archive s)
      as [(e0 & E & Hret) | (reReader & s1 & E & Hd & Hk)].
    { rewrite E in Hin. in_inv Hin; discriminate Hin. }
    rewrite E in Hin |- *. unfold prepend, verdict in Hin |- *.
    cbn [log returned] in Hin |- *.
    assert (Hrelay : forall w,
      let rr := handleChunks handlerChan chunkSkel (mkState w (done s1) (ticks s1)) in
      returned rr = Some false /\
      log rr = map ESend (chunks_of chunkSkel (firstn forwardedBefore handlerChan))).
    { intros w rr.
      destruct (relay_after_cancel handlerChan chunkSkel forwardedBefore
                  (Done :: rest') (mkState w (done s1) (ticks s1)) HM)
        as (_ & _ & H3); [cbn [ticks]; congruence|].
      destruct (H3 rest' eq_refl) as (Hr & Hl & _). split; assumption. }
    destruct (processHandler_attempt Archive reReader chunkSkel s1)
      as [f err chan w | probe e w Hp | probe f w Hp | probe f chan w Hp].
    + assert (chan = handlerChan).
      { rewrite released_prepend in Hin. unfold prepend, released in Hin.
        destruct (handleChunks_run chan chunkSkel (mkState w (done s1) (ticks s1)))
          as [m _ Hl _ _ _ _].
        destruct (returned (handleChunks chan chunkSkel _));
          cbn [log] in Hin; rewrite Hl in Hin; in_inv Hin; try discriminate Hin;
          injection Hin; intros; subst; reflexivity. }
      subst chan. destruct (Hrelay w) as [Hr Hl].
      rewrite released_prepend. unfold prepend, released.
      rewrite Hr. cbn [log returned option_map]. rewrite Hl.
      split; [reflexivity|].
      cbn [sends app]. rewrite !sends_app, sends_map_ESend.
      cbn [sends]. apply app_nil_r.
    + exfalso. unfold released in Hin. cbn [returned log] in Hin.
      destruct Hp; in_inv Hin; discriminate Hin.
    + exfalso. unfold released in Hin. cbn [returned log] in Hin.
      destruct Hp; in_inv Hin; discriminate Hin.
    + assert (chan = handlerChan).
      { rewrite released_prepend in Hin. unfold prepend, released in Hin.
        destruct (handleChunks_run chan chunkSkel (mkState w (done s1) (ticks s1)))
          as [m _ Hl _ _ _ _].
        destruct Hp;
        destruct (returned (handleChunks chan chunkSkel _));
          cbn [log] in Hin; rewrite Hl in Hin; in_inv Hin; try discriminate Hin;
          injection Hin; intros; subst; reflexivity. }
      subst chan. destruct (Hrelay w) as [Hr Hl].
      rewrite released_prepend. unfold prepend, released.
      rewrite Hr. cbn [log returned option_map]. rewrite Hl.
      split; [reflexivity|].
      cbn [sends app]. rewrite !sends_app, sends_map_ESend.
      rewrite (sends_not_special _ _ _ Hp). cbn [sends app]. apply app_nil_r.
Qed.

End DispatchTheorems.

(** ** What a dispatch call does to the world *)

Section WorldFacts.
Context `{Ext : Externals}.
Variable R : World -> World -> Prop.
Hypothesis R_refl : forall w, R w w.
Hypothesis R_trans : forall w1 w2 w3, R w1 w2 -> R w2 w3 -> R w1 w3.

Lemma keeps_ret {A} (a : A) : keeps R (ret a).
Proof. intros s. apply R_refl. Qed.

Lemma keeps_bind {A B} (m : M A) (k : A -> M B) :
  keeps R m -> (forall a, keeps R (k a)) -> keeps R (bind m k).
Proof.
  intros Hm Hk s. unfold bind. specialize (Hm s).
  destruct (m s) as [[a|] s1 l1]; cbn [returned final] in *; [|exact Hm].
  eapply R_trans; [exact Hm | apply Hk].
Qed.

Lemma keeps_invoke {A} (f : Ctx -> World -> A * World) (ev : A -> event) :
  (forall ctx w, R w (snd (f ctx w))) -> keeps R (invoke f ev).
Proof.
  intros Hf s. unfold invoke. specialize (Hf (done s) (world s)).
  destruct (f (done s) (world s)) as [a w]. exact Hf.
Qed.

Lemma keeps_logError (e : error) (msg : string) : keeps R (logError e msg).
Proof. intros s. apply R_refl. Qed.

Lemma keeps_defer {A} (d : M unit) (body : M A) :
  keeps R d -> keeps R body -> keeps R (defer d body).
Proof.
  intros Hd Hb s. unfold defer. specialize (Hb s).
  destruct (body s) as [[a|] s1 l1]; cbn [returned final] in *; [|exact Hb].
  eapply R_trans; [exact Hb | apply Hd].
Qed.

Lemma keeps_handleChunks (handlerChan : Chan) (chunkSkel : Chunk) :
  keeps R (handleChunks handlerChan chunkSkel).
Proof.
  intros s. destruct (handleChunks_run handlerChan chunkSkel s) as [m _ _ Hw _ _ _].
  rewrite Hw. apply R_refl.
Qed.

Lemma keeps_for_range {A B} (xs : list A) (body : A -> M (option B)) (rest : M B) :
  (forall x, In x xs -> keeps R (body x)) -> keeps R rest ->
  keeps R (for_range xs body rest).
Proof.
  intros Hbody Hrest. induction xs as [|x xs IH]; [exact Hrest|].
  cbn [for_range]. apply keeps_bind.
  - apply Hbody. left. reflexivity.
  - intros [b|]; [apply keeps_ret|]. apply IH.
    intros y Hy. apply Hbody. right. exact Hy.
Qed.

Hypothesis library : library_respects R.

Lemma keeps_processHandler (h : Handler) (reReader : DiskBufferReader)
    (chunkSkel : Chunk) :
  respects R h -> keeps R (processHandler h reReader chunkSkel).
Proof.
  intros (HNew & HIs & HFrom & HSp).
  destruct library as (LNew & LSeek & LStop & LClose).
  unfold processHandler.
  apply keeps_defer; [apply keeps_invoke; intros; apply LClose|].
  apply keeps_defer; [apply keeps_invoke; intros; apply LStop|].
  apply keeps_bind.
  - unfold specializedStep. destruct (specialized h) as [sp|] eqn:Hsp;
      [|apply keeps_ret].
    apply keeps_bind; [apply keeps_invoke; intros; apply (HSp sp eq_refl)|].
    intros [[file [|]] err].
    + apply keeps_bind; [apply keeps_invoke; intros; apply HFrom|].
      intros chan. apply keeps_bind; [apply keeps_handleChunks|].
      intros b. apply keeps_ret.
    + apply keeps_bind; [|intros; apply keeps_ret].
      destruct err; [apply keeps_logError | apply keeps_ret].
  - intros [b|]; [apply keeps_ret|].
    unfold ordinaryStep.
    apply keeps_bind; [apply keeps_invoke; intros; apply LSeek|].
    intros [e|].
    + apply keeps_bind; [apply keeps_logError | intros; apply keeps_ret].
    + apply keeps_bind; [apply keeps_invoke; intros; apply HIs|].
      intros [file [|]]; cbn [negb]; [|apply keeps_ret].
      apply keeps_bind; [apply keeps_invoke; intros; apply HFrom|].
      intros chan. apply keeps_handleChunks.
Qed.

Lemma keeps_tryHandler (file : Reader) (chunkSkel : Chunk) (h : Handler) :
  respects R h -> keeps R (tryHandler file chunkSkel h).
Proof.
  intros Hh. unfold tryHandler.
  apply keeps_bind; [apply keeps_invoke; intros; apply Hh|]. intros _.
  apply keeps_bind; [apply keeps_invoke; intros; apply library|].
  intros [reReader|e].
  - apply keeps_bind; [apply keeps_processHandler; exact Hh|].
    intros [|]; apply keeps_ret.
  - apply keeps_bind; [apply keeps_logError | intros; apply keeps_ret].
Qed.

Lemma keeps_attempts (handlers : list Handler) (file : Reader) (chunkSkel : Chunk) :
  Forall (respects R) handlers -> keeps R (attempts handlers file chunkSkel).
Proof.
  intros Hall. unfold attempts. apply keeps_for_range; [|apply keeps_ret].
  intros h Hin. apply keeps_bind; [|intros; apply keeps_ret].
  apply keeps_tryHandler. rewrite Forall_forall in Hall. apply Hall. exact Hin.
Qed.

Lemma keeps_HandleFile_over (handlers : list Handler) (file : Reader)
    (chunkSkel : Chunk) :
  Forall (respects R) handlers -> keeps R (HandleFile_over handlers file chunkSkel).
Proof.
  intros Hall. unfold HandleFile_over. apply keeps_for_range; [|apply keeps_ret].
  intros h Hin. apply keeps_tryHandler.
  rewrite Forall_forall in Hall. apply Hall. exact Hin.
Qed.

End WorldFacts.

(** ** More on the relay *)

Section RelayMore.
Context `{Ext : Externals}.

(** X1. Whatever the scheduler does, the chunks [handleChunks] has sent are
    an initial segment of the chunks of the payloads, in the order of the
    producer channel, each a clone of the template but for its data; the
    relay logs nothing but these sends and leaves the world alone. *)
Theorem relay_forwards_an_initial_segment
    (handlerChan : Chan) (chunkSkel : Chunk) (s : state) :
  let r := handleChunks handlerChan chunkSkel s in
  sends (log r) = firstn (length (sends (log r)))
                         (map (with_Data chunkSkel) handlerChan) /\
  length (sends (log r)) <= length handlerChan /\
  (forall chunk, In chunk (sends (log r)) -> Meta chunk = Meta chunkSkel) /\
  log r = map ESend (sends (log r)) /\
  world (final r) = world s.
Proof.
  intros r. subst r.
  destruct (handleChunks_run handlerChan chunkSkel s) as [m Hle Hlog Hw _ _ _].
  rewrite Hlog, sends_map_ESend. unfold chunks_of.
  rewrite length_map, length_firstn, Nat.min_l by exact Hle.
  repeat split; auto.
  - symmetry. apply firstn_map.
  - intros chunk Hin. apply in_map_iff in Hin.
    destruct Hin as (data & <- & _). reflexivity.
Qed.

(** X2. [handleChunks] returns [true] only when every payload of the
    producer channel has been sent on, in order. *)
Theorem relay_true_means_all_forwarded
    (handlerChan : Chan) (chunkSkel : Chunk) (s : state) :
  let r := handleChunks handlerChan chunkSkel s in
  returned r = Some true ->
  sends (log r) = map (with_Data chunkSkel) handlerChan.
Proof.
  intros r Hret. subst r.
  destruct (handleChunks_run handlerChan chunkSkel s) as [m _ Hlog _ Htrue _ _].
  rewrite Hlog, sends_map_ESend, (Htrue Hret), firstn_all. reflexivity.
Qed.

Lemma done_only_by_cancel (chunkSkel : Chunk) (w : World) (sched : list tick) :
  (forall c chan,
     done (final (select_recv sched w c chan chunkSkel)) = true ->
     c = true \/ In Cancel sched) /\
  (forall c chunk chan,
     done (final (select_send sched w c chunk chan chunkSkel)) = true ->
     c = true \/ In Cancel sched).
Proof.
  induction sched as [|t sched [IHr IHs]].
  - split; intros; simpl in *; auto.
  - split.
    + intros c chan H. destruct t; simpl in *.
      * right. left. reflexivity.
      * destruct chan as [|data chan]; simpl in H; [auto|].
        destruct (IHs _ _ _ H); auto.
      * destruct c; simpl in H; [auto|]. destruct (IHr _ _ H); auto.
    + intros c chunk chan H. destruct t; simpl in *.
      * right. left. reflexivity.
      * destruct (IHr _ _ H); auto.
      * destruct c; simpl in H; [auto|]. destruct (IHs _ _ _ H); auto.
Qed.

(** X3. [handleChunks] returns [false] only if the context is cancelled:
    it was cancelled on entry or is cancelled during the run. *)
Theorem relay_false_means_cancelled
    (handlerChan : Chan) (chunkSkel : Chunk) (s : state) :
  let r := handleChunks handlerChan chunkSkel s in
  returned r = Some false ->
  (done s = true \/ In Cancel (ticks s)) /\ done (final r) = true.
Proof.
  intros r Hret. subst r.
  destruct (handleChunks_run handlerChan chunkSkel s) as [m _ _ _ _ Hfalse _].
  destruct (Hfalse Hret) as [Hd _]. split; [|exact Hd].
  destruct (done_only_by_cancel chunkSkel (world s) (ticks s)) as [Hr _].
  exact (Hr _ _ Hd).
Qed.

Lemma stalled_run (chunkSkel : Chunk) (w : World) (sched : list tick) :
  ~ In Cancel sched ->
  (forall chan, comms sched < 2 * length chan + 1 ->
     let r := select_recv sched w false chan chunkSkel in
     returned r = None /\
     log r = map ESend (chunks_of chunkSkel (firstn (comms sched / 2) chan))) /\
  (forall data chan, comms sched < 2 * length chan + 2 ->
     let r := select_send sched w false (with_Data chunkSkel data) chan chunkSkel in
     returned r = None /\
     log r = map ESend (chunks_of chunkSkel
                          (firstn ((comms sched + 1) / 2) (data :: chan)))).
Proof.
  induction sched as [|t sched IH]; intros Hno.
  - split; intros; split; reflexivity.
  - assert (Hno' : ~ In Cancel sched) by (intros H; apply Hno; right; exact H).
    destruct (IH Hno') as [IHr IHs].
    destruct t; cbn [select_recv select_send comms].
    + exfalso. apply Hno. left. reflexivity.
    + split.
      * intros [|data chan] Hc; cbn [length] in Hc; [lia|].
        replace (S (comms sched) / 2) with ((comms sched + 1) / 2)
          by (f_equal; lia).
        apply IHs. lia.
      * intros data chan Hc. cbv zeta.
        destruct (IHr chan) as [Hret Hlog]; [lia|].
        cbn [returned log]. rewrite Hret, Hlog.
        replace ((S (comms sched) + 1) / 2) with (S (comms sched / 2)).
        -- split; reflexivity.
        -- replace (S (comms sched) + 1) with (comms sched + 1 * 2) by lia.
           rewrite Nat.div_add by lia. lia.
    + split; [apply IHr | apply IHs].
Qed.

(** X4. With the context never cancelled, [handleChunks] does not give up
    on a consumer that stalls: if fewer than 2N+1 channel operations
    proceed, it neither returns nor drops a payload, but waits, having sent
    on one chunk for every two operations that proceeded. *)
Theorem relay_waits_for_a_stalled_consumer
    (handlerChan : Chan) (chunkSkel : Chunk) (s : state) :
  done s = false ->
  ~ In Cancel (ticks s) ->
  comms (ticks s) < 2 * length handlerChan + 1 ->
  let r := handleChunks handlerChan chunkSkel s in
  returned r = None /\
  sends (log r)
  = map (with_Data chunkSkel) (firstn (comms (ticks s) / 2) handlerChan).
Proof.
  intros Hd Hno Hc r. subst r. unfold handleChunks. rewrite Hd.
  destruct (stalled_run chunkSkel (world s) (ticks s) Hno) as [Hr _].
  destruct (Hr handlerChan Hc) as [Hret Hlog].
  rewrite Hlog, sends_map_ESend. split; [exact Hret | reflexivity].
Qed.

End RelayMore.

(** ** More on one attempt *)

Section AttemptMore.
Context `{Ext : Externals}.

(** X5. [processHandler] calls [IsFiletype] at most once, on the
    Rewindable Source of the attempt, and only right after the one [Seek]
    of the attempt has succeeded in rewinding that source. *)
Theorem type_check_follows_the_rewind
    (h : Handler) (reReader : DiskBufferReader) (chunkSkel : Chunk) (s : state)
    (h0 : Handler) (arg file : Reader) (isType : bool) :
  let r := processHandler h reReader chunkSkel s in
  In (EIsFiletype h0 arg file isType) (log r) ->
  h0 = h /\ arg = as_Reader reReader /\
  exists l0 l2,
    log r = l0 ++ ESeek reReader None :: EIsFiletype h arg file isType :: l2 /\
    (forall d e, ~ In (ESeek d e) l0 /\ ~ In (ESeek d e) l2) /\
    (forall h' a f b, ~ In (EIsFiletype h' a f b) l0 /\
                      ~ In (EIsFiletype h' a f b) l2).
Proof.
  intros r Hin. subst r.
  attempt_paths h reReader chunkSkel s;
    rewrite Hlog in Hin |- *; clear Hlog;
    in_inv Hin; try discriminate Hin.
  all: injection Hin; intros; subst; clear Hin.
  all: split; [reflexivity|]; split; [reflexivity|].
  all: match goal with
       | |- context [(?probe ++ ESeek _ _ :: _) ++ ?fw ++ ?cl] =>
           exists probe;
           match goal with
           | |- context [EIsFiletype _ _ _ true :: ?tl] => exists (tl ++ fw ++ cl)
           | |- context [EIsFiletype _ _ _ false :: ?tl] => exists (tl ++ fw ++ cl)
           end
       end.
  all: split; [rewrite <- app_assoc; reflexivity|].
  all: split; [intros d e'; split; intros H; in_inv H; discriminate H|].
  all: intros h' a f b; split; intros H; in_inv H; discriminate H.
Qed.

(** X6. When [IsFiletype] rejects the stream, the attempt is over:
    [processHandler] returns [false] with no producer started and nothing
    forwarded, after releasing the source. *)
Theorem rejection_ends_the_attempt
    (h : Handler) (reReader : DiskBufferReader) (chunkSkel : Chunk) (s : state)
    (h0 : Handler) (arg file : Reader) :
  let r := processHandler h reReader chunkSkel s in
  In (EIsFiletype h0 arg file false) (log r) ->
  returned r = Some false /\
  sends (log r) = [] /\
  (forall h' a c, ~ In (EFromFile h' a c) (log r)) /\
  exists l0, log r = l0 ++ [EIsFiletype h (as_Reader reReader) file false;
                            EStop reReader; EClose reReader].
Proof.
  intros r Hin. subst r.
  attempt_paths h reReader chunkSkel s;
    rewrite Hlog in Hin |- *; clear Hlog;
    in_inv Hin; try discriminate Hin.
  all: injection Hin; intros; subst; clear Hin.
  all: rewrite Hret; cbn [closing firstn chunks_of map app].
  all: split; [reflexivity|]; split; [reflexivity|]; split.
  all: try (intros h' a c H; in_inv H; discriminate H).
  all: first [ refine (ex_intro _ [_] _); reflexivity
             | refine (ex_intro _ [_; _] _); reflexivity
             | refine (ex_intro _ [_; _; _] _); reflexivity ].
Qed.

Lemma attempt_confined
    (h : Handler) (reReader : DiskBufferReader) (chunkSkel : Chunk) (s : state) :
  let r := processHandler h reReader chunkSkel s in
  news (log r) = [] /\
  constructed (log r) = [] /\
  (forall f res, ~ In (EReaderNew f res) (log r)) /\
  (forall e h', In e (log r) -> handler_of e = Some h' -> h' = h) /\
  (forall e d, In e (log r) -> source_of e = Some d -> d = reReader).
Proof.
  intros r. subst r.
  assert (Hnone : forall cs : list Chunk,
            news (map ESend cs) = [] /\ constructed (map ESend cs) = []).
  { induction cs as [|c cs [IH1 IH2]]; split; auto. }
  assert (Happ : forall t1 t2 : list event,
            news (t1 ++ t2) = news t1 ++ news t2 /\
            constructed (t1 ++ t2) = constructed t1 ++ constructed t2).
  { induction t1 as [|e t1 IH]; intros t2; [split; reflexivity|].
    destruct (IH t2) as [IH1 IH2].
    destruct e as [| ? [|] | | | | | | | |]; cbn [news constructed app];
      rewrite ?IH1, ?IH2; split; reflexivity. }
  attempt_paths h reReader chunkSkel s; rewrite Hlog; clear Hlog.
  all: repeat split.
  all: try (repeat (rewrite (proj1 (Happ _ _)) || rewrite (proj2 (Happ _ _)));
            rewrite ?(proj1 (Hnone _)), ?(proj2 (Hnone _));
            destruct (returned (processHandler h reReader chunkSkel s));
            reflexivity).
  all: try (intros f res H; in_inv H; discriminate H).
  all: try (intros ev h' H Hh; in_inv H; subst ev; cbn [handler_of] in Hh;
            try discriminate Hh; injection Hh; intros; subst; reflexivity).
  all: intros ev d H Hd; in_inv H; subst ev; cbn [source_of] in Hd;
       try discriminate Hd; injection Hd; intros; subst; reflexivity.
Qed.

(** X7. What [processHandler] does not do: it resets no handler and
    constructs no source; it calls no handler but the one it was given;
    and it rewinds, stops and closes no source but the one it was given. *)
Theorem attempt_stays_with_its_handler_and_source
    (h : Handler) (reReader : DiskBufferReader) (chunkSkel : Chunk) (s : state) :
  let r := processHandler h reReader chunkSkel s in
  news (log r) = [] /\
  constructed (log r) = [] /\
  (forall f res, ~ In (EReaderNew f res) (log r)) /\
  (forall e h', In e (log r) -> handler_of e = Some h' -> h' = h) /\
  (forall e d, In e (log r) -> source_of e = Some d -> d = reReader).
Proof. exact (attempt_confined h reReader chunkSkel s). Qed.

End AttemptMore.

(** ** More on the dispatch loop *)

Section DispatchMore.
Context `{Ext : Externals}.

Lemma quiet_round_returns (file : Reader) (chunkSkel : Chunk) (h : Handler) (s : state) :
  let a := tryHandler file chunkSkel h s in
  (forall h', ~ accepted_by h' (log a)) ->
  returned a = Some None \/ returned a = Some (Some false).
Proof.
  intros a Hno. subst a.
  round_paths file chunkSkel h s.
  { right. exact Hround. }
  all: rewrite Eround in Hno |- *; unfold prepend, verdict in Hno |- *;
       cbn [log returned] in Hno |- *; rewrite Hlog in Hno.
  all: try (left; rewrite Hret; reflexivity).
  all: exfalso; apply (Hno h).
  all: first [ left; eexists; eexists; eexists; cbn [app];
               rewrite ?in_app_iff; simpl; eauto 8; fail
             | right; eexists; eexists; cbn [app];
               rewrite ?in_app_iff; simpl; eauto 8; fail ].
Qed.

Lemma quiet_call
    (handlers : list Handler) (file : Reader) (chunkSkel : Chunk) (s : state) :
  let r := HandleFile_over handlers file chunkSkel s in
  (forall h', ~ accepted_by h' (log r)) ->
  returned r = Some false /\ sends (log r) = [].
Proof.
  revert s. induction handlers as [|h handlers IH]; intros s r Hno; subst r.
  - split; reflexivity.
  - destruct (HandleFile_over_quiet (h :: handlers) file chunkSkel s Hno) as [Hs _].
    split; [|exact Hs].
    destruct (HandleFile_over_split h handlers file chunkSkel s)
      as [[Ea Er] | (Ea & El & _ & Ef)].
    + rewrite Er in Hno |- *. unfold prepend in Hno |- *. cbn [log returned] in Hno |- *.
      apply IH. intros h' H. apply (Hno h'). apply accepted_by_app. right. exact H.
    + rewrite El in Hno.
      destruct (quiet_round_returns file chunkSkel h s Hno) as [E|E];
        [contradiction | apply Ef; exact E].
Qed.

(** X8. When no registered variant accepts the stream, the call returns
    [false] - it cannot be left waiting - and nothing is sent on the
    output channel. *)
Theorem nothing_accepted_nothing_forwarded
    (handlers : list Handler) (file : Reader) (chunkSkel : Chunk) (s : state) :
  let r := HandleFile_over handlers file chunkSkel s in
  (forall h', ~ accepted_by h' (log r)) ->
  returned r = Some false /\ sends (log r) = [].
Proof. exact (quiet_call handlers file chunkSkel s). Qed.

Lemma round_true_is_complete (file : Reader) (chunkSkel : Chunk) (h : Handler) (s : state) :
  let a := tryHandler file chunkSkel h s in
  returned a = Some (Some true) ->
  exists t arg handlerChan reReader,
    log a = t ++ EFromFile h arg handlerChan
              :: map ESend (chunks_of chunkSkel handlerChan)
              ++ [EStop reReader; EClose reReader] /\
    sends t = [].
Proof.
  intros a Hret. subst a.
  round_paths file chunkSkel h s.
  { rewrite Hround in Hret. discriminate Hret. }
  all: rewrite Eround in Hret |- *; unfold prepend, verdict in Hret |- *;
       cbn [log returned] in Hret |- *; rewrite Hlog.
  all: try (rewrite Hret0 in Hret; discriminate Hret).
  all: assert (Hp : returned (processHandler h reReader chunkSkel s1) = Some true)
       by (destruct (returned (processHandler h reReader chunkSkel s1)) as [[|]|];
           [reflexivity | discriminate Hret | discriminate Hret]).
  all: rewrite Hp, (Htrue Hp), firstn_all; cbn [closing].
  - exists [ENew h; EReaderNew file (inl reReader);
            EHandleSpecialized h (as_Reader reReader) file0 true err],
           file0, chan, reReader. split; reflexivity.
  - exists [ENew h; EReaderNew file (inl reReader); ESeek reReader None;
            EIsFiletype h (as_Reader reReader) file0 true],
           (as_Reader reReader), chan, reReader. split; reflexivity.
  - exists [ENew h; EReaderNew file (inl reReader);
            EHandleSpecialized h (as_Reader reReader) file1 false None;
            ESeek reReader None;
            EIsFiletype h (as_Reader reReader) file0 true],
           (as_Reader reReader), chan, reReader. split; reflexivity.
  - exists [ENew h; EReaderNew file (inl reReader);
            EHandleSpecialized h (as_Reader reReader) file1 false (Some e);
            ELogError e "error handling file";
            ESeek reReader None;
            EIsFiletype h (as_Reader reReader) file0 true],
           (as_Reader reReader), chan, reReader. split; reflexivity.
Qed.

(** X9. A call returns [true] only on a complete relay: the last things it
    did were to start the producer of a registered variant, to send on
    every payload of that producer, in order, and to release the source. *)
Theorem true_means_a_complete_relay
    (handlers : list Handler) (file : Reader) (chunkSkel : Chunk) (s : state) :
  let r := HandleFile_over handlers file chunkSkel s in
  returned r = Some true ->
  exists t h arg handlerChan reReader,
    In h handlers /\
    log r = t ++ EFromFile h arg handlerChan
              :: map ESend (map (with_Data chunkSkel) handlerChan)
              ++ [EStop reReader; EClose reReader].
Proof.
  revert s. induction handlers as [|h handlers IH]; intros s r Hret; subst r.
  - discriminate Hret.
  - destruct (HandleFile_over_split h handlers file chunkSkel s)
      as [[Ea Er] | (Ea & El & Et & _)].
    + rewrite Er in Hret |- *. unfold prepend in Hret |- *. cbn [log returned] in Hret |- *.
      destruct (IH _ Hret) as (t & h' & arg & chan & d & Hin & Hlog).
      exists (log (tryHandler file chunkSkel h s) ++ t), h', arg, chan, d.
      split; [right; exact Hin|]. rewrite Hlog, <- app_assoc. reflexivity.
    + rewrite El.
      destruct (round_true_is_complete file chunkSkel h s (proj1 Et Hret))
        as (t & arg & chan & d & Hlog & _).
      exists t, h, arg, chan, d. split; [left; reflexivity | exact Hlog].
Qed.

Lemma news_app (t1 t2 : list event) : news (t1 ++ t2) = news t1 ++ news t2.
Proof.
  induction t1 as [|e t1 IH]; [reflexivity|].
  destruct e; cbn [news app]; rewrite ?IH; reflexivity.
Qed.

Lemma round_news (file : Reader) (chunkSkel : Chunk) (h : Handler) (s : state) :
  news (log (tryHandler file chunkSkel h s)) = [h].
Proof.
  destruct (tryHandler_log file chunkSkel h s)
    as [(e & E & _) | (reReader & s1 & E & _ & _)].
  - rewrite E. reflexivity.
  - rewrite E. unfold prepend, verdict. cbn [log app news].
    destruct (attempt_confined h reReader chunkSkel s1) as [Hn _].
    rewrite Hn. reflexivity.
Qed.

(** X10. The variants are tried in registration order, each at most once
    and none skipped: the handlers reset during a call are an initial
    segment of the list.  A call that returns [false] has either failed to
    construct a source or tried every registered variant. *)
Theorem variants_tried_in_registration_order
    (handlers : list Handler) (file : Reader) (chunkSkel : Chunk) (s : state) :
  let r := HandleFile_over handlers file chunkSkel s in
  exists k,
    k <= length handlers /\
    news (log r) = firstn k handlers /\
    (returned r = Some false ->
     (exists e, In (EReaderNew file (inr e)) (log r)) \/ k = length handlers).
Proof.
  revert s. induction handlers as [|h handlers IH]; intros s r; subst r.
  - exists 0. repeat split; auto.
  - destruct (HandleFile_over_split h handlers file chunkSkel s)
      as [[Ea Er] | (Ea & El & _ & Ef)].
    + destruct (IH (final (tryHandler file chunkSkel h s))) as (k & Hk & Hn & Hf).
      exists (S k). rewrite Er. unfold prepend. cbn [log returned length firstn].
      rewrite news_app, round_news, Hn. repeat split; [lia|].
      intros E. destruct (Hf E) as [[e He] | ->]; [left | right; reflexivity].
      exists e. apply in_or_app. right. exact He.
    + exists 1. rewrite El, round_news. cbn [length firstn].
      repeat split; [lia|].
      intros E. left.
      destruct (tryHandler_log file chunkSkel h s)
        as [(e & E' & _) | (reReader & s1 & E' & _ & _)].
      * exists e. rewrite E'. right. left. reflexivity.
      * exfalso. pose proof (proj1 Ef E) as Hr. rewrite E' in Hr.
        unfold prepend, verdict in Hr. cbn [returned] in Hr.
        destruct (returned (processHandler h reReader chunkSkel s1)) as [[|]|];
          discriminate Hr.
Qed.

End DispatchMore.

Section Resources.
Context `{Ext : Externals}.

Lemma sources_app (t1 t2 : list event) :
  constructed (t1 ++ t2) = constructed t1 ++ constructed t2 /\
  stopped (t1 ++ t2) = stopped t1 ++ stopped t2 /\
  closed (t1 ++ t2) = closed t1 ++ closed t2.
Proof.
  induction t1 as [|e t1 (IH1 & IH2 & IH3)]; [repeat split|].
  destruct e as [| ? [|] | | | | | | | |];
    cbn [constructed stopped closed app]; rewrite ?IH1, ?IH2, ?IH3;
    repeat split.
Qed.

Lemma sources_of_sends (cs : list Chunk) :
  constructed (map ESend cs) = [] /\ stopped (map ESend cs) = [] /\
  closed (map ESend cs) = [].
Proof. induction cs as [|c cs (IH1 & IH2 & IH3)]; repeat split; auto. Qed.

(** The sources a round constructs and releases. *)
Lemma round_sources (file : Reader) (chunkSkel : Chunk) (h : Handler) (s : state) :
  let a := tryHandler file chunkSkel h s in
  match returned a with
  | Some _ =>
      stopped (log a) = constructed (log a) /\ closed (log a) = constructed (log a)
  | None =>
      exists d, constructed (log a) = [d] /\ stopped (log a) = [] /\
                closed (log a) = []
  end.
Proof.
  intros a. subst a.
  round_paths file chunkSkel h s.
  { rewrite Hround, Eround. split; reflexivity. }
  all: rewrite Eround; unfold prepend, verdict; cbn [log returned]; rewrite Hlog.
  all: repeat (rewrite (proj1 (sources_app _ _))
               || rewrite (proj1 (proj2 (sources_app _ _)))
               || rewrite (proj2 (proj2 (sources_app _ _)))).
  all: rewrite ?(proj1 (sources_of_sends _)), ?(proj1 (proj2 (sources_of_sends _))),
               ?(proj2 (proj2 (sources_of_sends _))).
  all: destruct (returned (processHandler h reReader chunkSkel s1)) as [b|];
       cbn [option_map closing constructed stopped closed app];
       try (split; reflexivity);
       try (exists reReader; repeat split; reflexivity);
       try discriminate Hret.
Qed.

(** X11. No source outlives a call: when [HandleFile] returns, whatever
    the result, every Rewindable Source it constructed has been stopped and
    closed, in the order of construction.  A call left waiting in the
    relay holds exactly one source, the last constructed, unreleased. *)
Theorem sources_are_released_on_return
    (handlers : list Handler) (file : Reader) (chunkSkel : Chunk) (s : state) :
  let r := HandleFile_over handlers file chunkSkel s in
  match returned r with
  | Some _ =>
      stopped (log r) = constructed (log r) /\ closed (log r) = constructed (log r)
  | None =>
      exists d, constructed (log r) = stopped (log r) ++ [d] /\
                closed (log r) = stopped (log r)
  end.
Proof.
  revert s. induction handlers as [|h handlers IH]; intros s r; subst r.
  - split; reflexivity.
  - pose proof (round_sources file chunkSkel h s) as Hround. cbv zeta in Hround.
    rewrite HandleFile_over_cons. cbv zeta.
    destruct (returned (tryHandler file chunkSkel h s)) as [[b|]|] eqn:Ea.
    + cbn [returned log]. exact Hround.
    + destruct Hround as [Hs Hc].
      specialize (IH (final (tryHandler file chunkSkel h s))). cbv zeta in IH.
      unfold prepend. cbn [returned log].
      destruct (sources_app (log (tryHandler file chunkSkel h s))
                  (log (HandleFile_over handlers file chunkSkel
                          (final (tryHandler file chunkSkel h s)))))
        as (E1 & E2 & E3).
      rewrite E1, E2, E3, Hs, Hc.
      destruct (returned (HandleFile_over handlers file chunkSkel _)).
      * destruct IH as [IH1 IH2]. rewrite IH1, IH2. split; reflexivity.
      * destruct IH as (d & IH1 & IH2). exists d.
        rewrite IH1, IH2, app_assoc. split; reflexivity.
    + cbn [returned log]. destruct Hround as (d & H1 & H2 & H3).
      exists d. rewrite H1, H2, H3. split; reflexivity.
Qed.

(** X12. [HandleFile] itself, over the default handler list: it resets
    and tries the one handler [Archive], once, constructing its source over
    the caller's stream; no other handler accepts in the call, and a call
    in which [Archive] does not accept returns [false] with nothing sent. *)
Theorem HandleFile_tries_Archive_once
    (Archive : Handler) (file : Reader) (chunkSkel : Chunk) (s : state) :
  let r := HandleFile Archive file chunkSkel s in
  news (log r) = [Archive] /\
  (exists res t, log r = ENew Archive :: EReaderNew file res :: t) /\
  (forall h', accepted_by h' (log r) -> h' = Archive) /\
  (~ accepted_by Archive (log r) -> returned r = Some false /\ sends (log r) = []).
Proof.
  intros r. subst r.
  assert (Hacc : forall h', accepted_by h' (log (HandleFile Archive file chunkSkel s))
                            -> h' = Archive).
  { intros h' H.
    destruct (HandleFile_over_accepting [Archive] file chunkSkel s h' H) as [E|[]].
    symmetry. exact E. }
  split; [|split; [|split; [exact Hacc|]]].
  - destruct (HandleFile_round Archive file chunkSkel s) as [El _].
    rewrite El. destruct (tryHandler_log file chunkSkel Archive s)
      as [(e & E & _) | (reReader & s1 & E & _ & _)]; rewrite E.
    + reflexivity.
    + unfold prepend, verdict. cbn [log app news].
      destruct (attempt_confined Archive reReader chunkSkel s1) as [Hn _].
      rewrite Hn. reflexivity.
  - destruct (HandleFile_round Archive file chunkSkel s) as [El _].
    rewrite El. destruct (tryHandler_log file chunkSkel Archive s)
      as [(e & E & _) | (reReader & s1 & E & _ & _)]; rewrite E.
    + eexists; eexists; reflexivity.
    + unfold prepend, verdict. cbn [log app]. eexists; eexists; reflexivity.
  - intros Hno.
    apply (quiet_call [Archive] file chunkSkel s).
    intros h' H. apply Hno. pose proof (Hacc h' H) as E. subst h'. exact H.
Qed.

End Resources.

Section Composition.
Context `{Ext : Externals}.

(** X13. On the specialized path the source is not rewound: once
    [HandleSpecialized] has recognized the stream, which it was given as
    the Rewindable Source of the attempt and as the first thing the attempt
    does, no [Seek] happens in that attempt. *)
Theorem recognized_path_does_not_rewind
    (h : Handler) (reReader : DiskBufferReader) (chunkSkel : Chunk) (s : state)
    (h0 : Handler) (arg file : Reader) (err : option error) :
  let r := processHandler h reReader chunkSkel s in
  In (EHandleSpecialized h0 arg file true err) (log r) ->
  arg = as_Reader reReader /\
  (exists rest, log r = EHandleSpecialized h arg file true err :: rest) /\
  (forall d e, ~ In (ESeek d e) (log r)).
Proof.
  intros r Hin. subst r.
  attempt_paths h reReader chunkSkel s;
    rewrite Hlog in Hin |- *; clear Hlog;
    in_inv Hin; try discriminate Hin.
  all: injection Hin; intros; subst; clear Hin.
  all: split; [reflexivity|]; split; [eexists; reflexivity|].
  all: intros d e H; in_inv H; discriminate H.
Qed.

(** X14. A handler without the [SpecializedHandler] capability is never
    probed: its attempt starts with the rewind of the source. *)
Theorem no_capability_no_probe
    (h : Handler) (reReader : DiskBufferReader) (chunkSkel : Chunk) (s : state) :
  specialized h = None ->
  let r := processHandler h reReader chunkSkel s in
  (forall h' a f b e, ~ In (EHandleSpecialized h' a f b e) (log r)) /\
  exists serr rest, log r = ESeek reReader serr :: rest.
Proof.
  intros Hsp r. subst r.
  unfold processHandler. rewrite defers_released.
  unfold specializedStep. rewrite Hsp, bind_ret.
  destruct (ordinaryStep_cases h reReader chunkSkel s)
    as [(e & w & E) | [(file & w & E) | (file & chan & w & E)]]; rewrite E.
  - unfold released. cbn [returned log app]. split.
    + intros h' a f b e' H. in_inv H; discriminate H.
    + eexists; eexists; reflexivity.
  - unfold released. cbn [returned log app]. split.
    + intros h' a f b e' H. in_inv H; discriminate H.
    + eexists; eexists; reflexivity.
  - rewrite released_prepend.
    destruct (handleChunks_run chan chunkSkel (mkState w (done s) (ticks s)))
      as [m _ Hl _ _ _ _].
    unfold prepend, released.
    destruct (returned (handleChunks chan chunkSkel _));
      cbn [log returned app]; rewrite Hl; split;
      try (intros h' a f isSp e' H; in_inv H; discriminate H);
      eexists; eexists; reflexivity.
Qed.

(** X16. A call changes the world only through the calls it makes to the
    handlers and to the reader library: a preorder on worlds that each of
    these calls respects is respected by the call as a whole. *)
Theorem dispatch_touches_the_world_only_by_foreign_calls
    (R : World -> World -> Prop) :
  (forall w, R w w) ->
  (forall w1 w2 w3, R w1 w2 -> R w2 w3 -> R w1 w3) ->
  library_respects R ->
  forall (handlers : list Handler) (file : Reader) (chunkSkel : Chunk) (s : state),
    Forall (respects R) handlers ->
    R (world s) (world (final (HandleFile_over handlers file chunkSkel s))).
Proof.
  intros Hrefl Htrans Hlib handlers file chunkSkel s Hall.
  exact (keeps_HandleFile_over R Hrefl Htrans Hlib handlers file chunkSkel Hall s).
Qed.

End Composition.

(** ** The dispatcher over a single-pass stream *)

Section SinglePassFacts.
Import SinglePass.

Lemma drawn_refl (w : stream_world) : drawn w w.
Proof. exists 0. reflexivity. Qed.

Lemma drawn_trans (w1 w2 w3 : stream_world) :
  drawn w1 w2 -> drawn w2 w3 -> drawn w1 w3.
Proof.
  intros [n Hn] [m Hm]. exists (m + n).
  rewrite Hm, Hn. apply skipn_skipn.
Qed.

Lemma library_draws_nothing : library_respects drawn.
Proof.
  repeat split.
  - intros file w. cbn. unfold new_source.
    destruct (storage w); exists 0; reflexivity.
  - intros d w. cbn. unfold seek_start.
    destruct (opened w); exists 0; reflexivity.
  - intros d w. apply drawn_refl.
  - intros d w. exists 0. reflexivity.
Qed.

Lemma read_draws (n : nat) (w : stream_world) : drawn w (snd (read n w)).
Proof.
  unfold read, drawn. cbn [snd raw].
  set (upto := Nat.max _ _).
  exists (upto - length (kept w)).
  rewrite skipn_app.
  assert (Hk : length (kept w) <= upto) by (unfold upto; lia).
  rewrite (skipn_all2 (kept w)) by exact Hk. reflexivity.
Qed.

(** Over a longer handler list, each round constructs its source over the
    raw stream as the earlier rounds left it: the source presents an end
    piece of the input, with variants that only read, and the whole input
    in the first round. *)
Lemma fresh_source_presents_what_is_left
    (pre : list Handler) (h : Handler) (file : reader) (chunkSkel : Chunk)
    (s : state) (reReader : nat) (w' : stream_world) :
  Forall well_behaved pre ->
  let earlier := attempts pre file chunkSkel s in
  returned earlier = Some None ->
  new_source file (New h (world (final earlier))) = (inl reReader, w') ->
  tryHandler file chunkSkel h (final earlier) =
    prepend [ENew h; EReaderNew file (inl reReader)]
            (verdict (processHandler h reReader chunkSkel
                        (mkState w' (done (final earlier)) (ticks (final earlier))))) /\
  presented w' = raw (New h (world (final earlier))) /\
  ((forall w, raw (New h w) = raw w) ->
   exists n, presented w' = skipn n (raw (world s))) /\
  (pre = [] -> (forall w, raw (New h w) = raw w) ->
   presented w' = raw (world s)).
Proof.
  intros Hpre earlier Hret Hnew.
  assert (Hp : presented w' = raw (New h (world (final earlier)))).
  { unfold new_source in Hnew.
    destruct (storage (New h (world (final earlier)))); [|discriminate].
    injection Hnew as _ <-. reflexivity. }
  split; [exact (tryHandler_source file chunkSkel h (final earlier) reReader w' Hnew)|].
  split; [exact Hp|]. split.
  - intros HNew. rewrite Hp, HNew.
    exact (keeps_attempts drawn drawn_refl drawn_trans library_draws_nothing
             pre file chunkSkel Hpre s).
  - intros -> HNew. rewrite Hp, HNew. reflexivity.
Qed.

Lemma read_presents (n : nat) (w : stream_world) :
  presented (snd (read n w)) = presented w.
Proof. unfold read, presented. cbn [snd kept raw]. apply firstn_skipn. Qed.

(** Reading, rewinding, reading again: the second read starts at the first
    byte the source presents, however much the first read took. *)
Lemma reread_from_the_start (reReader n m : nat) (w : stream_world) :
  opened w = true ->
  fst (read m (snd (seek_start reReader (snd (read n w)))))
  = firstn m (presented w).
Proof.
  intros Hop. unfold seek_start.
  replace (opened (snd (read n w))) with true by (symmetry; exact Hop).
  cbn [snd]. unfold read at 1. cbn [fst kept raw offset skipn].
  fold (presented (snd (read n w))). rewrite read_presents. reflexivity.
Qed.

(** C9.  In a dispatch call the handler variant tried gets a Rewindable
    Source constructed in that call, over the raw stream, before anything
    has read from it: the one source of the call, handed to
    [processHandler].  It presents the bytes of the raw input stream from
    the start, and goes on presenting them: whatever has been read through
    it, after a rewind a read yields the input again from its first byte,
    without the caller supplying the stream anew. *)
Theorem HandleFile_source_presents_the_input
    (Archive : Handler) (file : reader) (chunkSkel : Chunk) (s : state)
    (reReader : nat) (w' : stream_world) :
  (forall w, raw (New Archive w) = raw w) ->
  new_source file (New Archive (world s)) = (inl reReader, w') ->
  let r := HandleFile Archive file chunkSkel s in
  log r = ENew Archive :: EReaderNew file (inl reReader)
          :: log (processHandler Archive reReader chunkSkel
                    (mkState w' (done s) (ticks s))) /\
  constructed (log r) = [reReader] /\
  presented w' = raw (world s) /\
  offset w' = 0 /\
  (forall n, presented (snd (read n w')) = raw (world s)) /\
  (forall n m,
     fst (read m (snd (seek_start reReader (snd (read n w')))))
     = firstn m (raw (world s))).
Proof.
  intros HNew Hnew r. subst r.
  destruct (HandleFile_round Archive file chunkSkel s) as [El _].
  pose proof (tryHandler_source file chunkSkel Archive s reReader w' Hnew
              : tryHandler file chunkSkel Archive s = _) as Et.
  rewrite El, Et.
  unfold prepend, verdict. cbn [log app constructed].
  destruct (attempt_confined Archive reReader chunkSkel
              (@mkState externals w' (done s) (ticks s))) as (_ & Hc & _).
  rewrite Hc.
  unfold new_source in Hnew.
  destruct (storage (New Archive (world s))); [|discriminate].
  injection Hnew as _ <-.
  assert (Hp : presented
                 {| raw := raw (New Archive (world s)); kept := []; offset := 0;
                    storage := true; opened := true;
                    made := S (made (New Archive (world s))) |}
               = raw (world s)).
  { unfold presented. cbn [kept raw app]. apply HNew. }
  split; [reflexivity|]. split; [reflexivity|]. split; [exact Hp|].
  split; [reflexivity|]. split.
  - intros n. rewrite read_presents. exact Hp.
  - intros n m. rewrite reread_from_the_start by reflexivity.
    rewrite Hp. reflexivity.
Qed.

End SinglePassFacts.

(** ** Runs of the dispatcher *)

Ltac in_compute H :=
  vm_compute in H;
  repeat match type of H with
         | _ \/ _ => destruct H as [H|H]
         | False => destruct H
         end.

Ltac find_in := vm_compute; repeat first [left; reflexivity | right].

Section Examples.
Import SinglePass.

(** C2 on the end-to-end scenario. *)
Lemma relay_to_end_witness :
  done (fresh [] (rounds 3 ++ [Comm])) = false /\
  ~ In Cancel (ticks (fresh [] (rounds 3 ++ [Comm]))) /\
  2 * length threePayloads + 1 <= comms (ticks (fresh [] (rounds 3 ++ [Comm]))) /\
  returned relayToEnd = Some true /\
  log relayToEnd = map ESend (sends (log relayToEnd)) /\
  length (sends (log relayToEnd)) = length threePayloads /\
  map Data (sends (log relayToEnd)) = threePayloads /\
  (forall chunk, In chunk (sends (log relayToEnd)) -> Meta chunk = Meta template) /\
  sends (log relayToEnd)
  = map (fun data => {| Meta := Meta template; Data := data |}) threePayloads /\
  world (final relayToEnd) = world (fresh [] (rounds 3 ++ [Comm])).
Proof.
  assert (H1 : done (fresh [] (rounds 3 ++ [Comm])) = false) by reflexivity.
  assert (H2 : ~ In Cancel (ticks (fresh [] (rounds 3 ++ [Comm])))).
  { intros H. in_compute H; discriminate H. }
  assert (H3 : 2 * length threePayloads + 1
               <= comms (ticks (fresh [] (rounds 3 ++ [Comm])))).
  { vm_compute. lia. }
  split; [exact H1|]. split; [exact H2|]. split; [exact H3|].
  exact (handleChunks_forwards_every_payload threePayloads template
           (fresh [] (rounds 3 ++ [Comm])) H1 H2 H3).
Defined.

(** C3, as stated, fails: the context is cancelled after one of two
    payloads has been forwarded, the selects that follow take the receive
    and the send that can proceed, and a second chunk is forwarded after
    the cancellation; in another run the relay even returns [true]. *)
Lemma forwarding_after_cancellation :
  1 < length twoPayloads /\
  ticks (fresh [] (rounds 1 ++ [Cancel; Comm; Comm; Done]))
    = rounds 1 ++ Cancel :: [Comm; Comm; Done] /\
  returned cancelledLate = Some false /\
  sends (log cancelledLate) = map (with_Data template) twoPayloads /\
  sends (log cancelledLate) <> map (with_Data template) (firstn 1 twoPayloads) /\
  ticks (fresh [] (rounds 1 ++ [Cancel; Comm; Comm; Comm]))
    = rounds 1 ++ Cancel :: [Comm; Comm; Comm] /\
  returned cancelledInVain = Some true /\
  returned cancelledInVain <> Some false.
Proof.
  repeat split; try (vm_compute; lia); try (vm_compute; discriminate).
Qed.

(** C3 on two payloads, the context cancelled after the first. *)
Lemma cancelled_at_once_witness :
  1 < length twoPayloads /\
  returned cancelledAtOnce = Some false /\
  sends (log cancelledAtOnce) = chunks_of template (firstn 1 twoPayloads) /\
  ticks (final cancelledAtOnce) = [].
Proof.
  assert (H : 1 < length twoPayloads) by (vm_compute; lia).
  split; [exact H|].
  destruct (cancellation_stops_the_relay twoPayloads template 1 H) as [Hrelay _].
  destruct (Hrelay [Done] (fresh [] (rounds 1 ++ [Cancel; Done])) eq_refl)
    as (_ & _ & Hdone).
  exact (Hdone [] eq_refl).
Defined.

(** C5 and C6 on a recognized container whose probe reports an error. *)
Lemma unwrapped_skips_type_check_witness :
  In (EHandleSpecialized container (Rewindable 0) (Wrapped 1) true (Some "odd"))
     (log unwrapped) /\
  (forall h' arg' file' isType, ~ In (EIsFiletype h' arg' file' isType) (log unwrapped)) /\
  (exists handlerChan, In (EFromFile container (Wrapped 1) handlerChan) (log unwrapped)) /\
  (forall h' arg' handlerChan,
     In (EFromFile h' arg' handlerChan) (log unwrapped) ->
     h' = container /\ arg' = Wrapped 1).
Proof.
  assert (H : In (EHandleSpecialized container (Rewindable 0) (Wrapped 1) true
                    (Some "odd")) (log unwrapped))
    by (find_in).
  split; [exact H|].
  exact (recognized_skips_type_check container 0 template
           (sourced (bytes "arxx") (rounds 1 ++ [Comm]))
           container (Rewindable 0) (Wrapped 1) (Some "odd") H).
Defined.

Lemma probe_error_witness :
  In (EHandleSpecialized container (Rewindable 0) (Wrapped 1) true (Some "odd"))
     (log unwrapped) /\
  In (EHandleSpecialized container (Rewindable 0) (Rewindable 0) false (Some "odd"))
     (log notAContainer) /\
  ((forall e' msg, ~ In (ELogError e' msg) (log unwrapped)) /\
   exists handlerChan m,
     log unwrapped
     = EHandleSpecialized container (Rewindable 0) (Wrapped 1) true (Some "odd")
       :: EFromFile container (Wrapped 1) handlerChan
       :: map ESend (chunks_of template (firstn m handlerChan))
       ++ closing 0 (returned unwrapped) /\
     m <= length handlerChan /\
     (returned unwrapped = Some true -> m = length handlerChan)) /\
  (exists serr rest,
     log notAContainer
     = EHandleSpecialized container (Rewindable 0) (Rewindable 0) false (Some "odd")
       :: ELogError "odd" "error handling file"
       :: ESeek 0 serr :: rest /\
     (serr = None ->
      exists file' isType rest',
        rest = EIsFiletype container (Rewindable 0) file' isType :: rest')).
Proof.
  assert (H1 : In (EHandleSpecialized container (Rewindable 0) (Wrapped 1) true
                     (Some "odd")) (log unwrapped))
    by (find_in).
  assert (H2 : In (EHandleSpecialized container (Rewindable 0) (Rewindable 0) false
                     (Some "odd")) (log notAContainer))
    by (find_in).
  split; [exact H1|]. split; [exact H2|]. split.
  - exact (specialized_error_does_not_abort container 0 template
             (sourced (bytes "arxx") (rounds 1 ++ [Comm]))
             container (Rewindable 0) (Wrapped 1) true "odd" H1).
  - exact (specialized_error_does_not_abort container 0 template
             (sourced (bytes "abcd") (rounds 1 ++ [Comm]))
             container (Rewindable 0) (Rewindable 0) false "odd" H2).
Defined.

(** C7 on a probe that closes the source. *)
Lemma slammed_witness :
  In (ESeek 0 (Some "seek on closed source")) (log slammed) /\
  (exists s1,
     slammed = prepend [ENew slammer; EReaderNew RawStream (inl 0)]
                       (verdict (processHandler slammer 0 template s1)) /\
     returned (processHandler slammer 0 template s1) = Some false) /\
  (exists t, log slammed = t ++ [ESeek 0 (Some "seek on closed source");
                                 ELogError "seek on closed source"
                                           "error seeking to start of file";
                                 EStop 0; EClose 0]) /\
  sends (log slammed) = [] /\
  returned slammed = Some None /\
  HandleFile_over (slammer :: [abLike]) RawStream template (fresh (bytes "abcd") []) =
  prepend (log slammed) (HandleFile_over [abLike] RawStream template (final slammed)).
Proof.
  assert (H : In (ESeek 0 (Some "seek on closed source")) (log slammed))
    by (find_in).
  split; [exact H|].
  exact (seek_failure_moves_on slammer [abLike] RawStream template
           (fresh (bytes "abcd") []) 0 "seek on closed source" H).
Defined.

(** C10 on the ordinary path: [IsFiletype] returns a wrapped reader, the
    producer is started on the source all the same. *)
Lemma sniffed_witness :
  In (EIsFiletype abLike (Rewindable 0) (Wrapped 0) true) (log sniffed) /\
  abLike = abLike /\ Rewindable 0 = as_Reader 0 /\
  (exists handlerChan, In (EFromFile abLike (as_Reader 0) handlerChan) (log sniffed)) /\
  (forall h' arg' handlerChan,
     In (EFromFile h' arg' handlerChan) (log sniffed) ->
     h' = abLike /\ arg' = as_Reader 0).
Proof.
  assert (H : In (EIsFiletype abLike (Rewindable 0) (Wrapped 0) true) (log sniffed))
    by (find_in).
  split; [exact H|].
  exact (type_check_reader_is_dropped abLike 0 template
           (sourced (bytes "abcd") (rounds 2 ++ [Comm]))
           abLike (Rewindable 0) (Wrapped 0) H).
Defined.

Lemma zipLike_is_not_taker : zipLike <> taker.
Proof.
  intros E.
  assert (H : snd (fst (IsFiletype zipLike false RawStream (world (fresh [] []))))
              = snd (fst (IsFiletype taker false RawStream (world (fresh [] [])))))
    by (rewrite E; reflexivity).
  vm_compute in H. discriminate H.
Qed.

Lemma distinct_variants : NoDup [zipLike; taker].
Proof.
  constructor.
  - intros [H|[]]. apply zipLike_is_not_taker. symmetry. exact H.
  - constructor; [intros []|constructor].
Qed.

(** C1, as stated, fails: [taker] is the one variant and accepts, its
    producer has two payloads, and the context is cancelled after the first
    has been forwarded; the second never reaches the output channel. *)
Lemma cancelled_before_the_second_payload :
  accepted_by taker (log cancelledTaker) /\
  (forall h', accepted_by h' (log cancelledTaker) -> h' = taker) /\
  In (EFromFile taker (Rewindable 0) [bytes "x"; bytes "y"]) (log cancelledTaker) /\
  returned cancelledTaker = Some false /\
  map Data (sends (log cancelledTaker)) = [bytes "x"] /\
  map Data (sends (log cancelledTaker)) <> [bytes "x"; bytes "y"].
Proof.
  split.
  { right. exists (Rewindable 0), (Rewindable 0). find_in. }
  split.
  { intros h' [(a & f & e & H) | (a & f & H)]; in_compute H;
      try discriminate H; injection H; intros; subst; reflexivity. }
  split; [find_in|].
  repeat split; try (vm_compute; discriminate).
Qed.

(** C1 on two variants of which the second takes the stream. *)
Lemma second_takes_witness :
  NoDup [zipLike; taker] /\
  accepted_by taker (log secondTakes) /\
  (forall h', accepted_by h' (log secondTakes) -> h' = taker) /\
  exists pre post,
    [zipLike; taker] = pre ++ taker :: post /\
    returned (attempts pre RawStream template
                (fresh (bytes "abcd") (rounds 2 ++ [Comm]))) = Some None /\
    sends (log (attempts pre RawStream template
                  (fresh (bytes "abcd") (rounds 2 ++ [Comm])))) = [] /\
    exists before arg handlerChan m after,
      log secondTakes
      = log (attempts pre RawStream template
               (fresh (bytes "abcd") (rounds 2 ++ [Comm])))
        ++ before ++ EFromFile taker arg handlerChan
        :: map ESend (sends (log secondTakes)) ++ after /\
      sends before = [] /\ sends after = [] /\
      m <= length handlerChan /\
      map Data (sends (log secondTakes)) = firstn m handlerChan /\
      (forall chunk, In chunk (sends (log secondTakes)) ->
                     Meta chunk = Meta template) /\
      (returned secondTakes = Some true ->
       map Data (sends (log secondTakes)) = handlerChan) /\
      (done (fresh (bytes "abcd") (rounds 2 ++ [Comm])) = false ->
       ~ In Cancel (ticks (fresh (bytes "abcd") (rounds 2 ++ [Comm]))) ->
       (forall h0 a c, In (EFromFile h0 a c) (log secondTakes) ->
          2 * length c + 1 <= comms (ticks (fresh (bytes "abcd") (rounds 2 ++ [Comm])))) ->
       returned secondTakes = Some true /\
       map Data (sends (log secondTakes)) = handlerChan).
Proof.
  assert (H1 : accepted_by taker (log secondTakes)).
  { right. exists (Rewindable 1), (Rewindable 1). find_in. }
  assert (H2 : forall h', accepted_by h' (log secondTakes) -> h' = taker).
  { intros h' [(a & f & e & H) | (a & f & H)]; in_compute H;
      try discriminate H; injection H; intros; subst; reflexivity. }
  split; [exact distinct_variants|]. split; [exact H1|]. split; [exact H2|].
  exact (only_the_accepting_variant_is_forwarded [zipLike; taker] RawStream template
           (fresh (bytes "abcd") (rounds 2 ++ [Comm])) taker
           distinct_variants H1 H2).
Defined.

(** C4 on a call in a world without temporary storage. *)
Lemma no_storage_witness :
  In (EReaderNew RawStream (inr "cannot create temporary file"))
     (log callWithoutStorage) /\
  returned callWithoutStorage = Some false /\
  sends (log callWithoutStorage) = [] /\
  log callWithoutStorage
  = [ENew abLike; EReaderNew RawStream (inr "cannot create temporary file");
     ELogError "cannot create temporary file" "error creating reusable reader"] /\
  (forall h' arg handlerChan,
     ~ In (EFromFile h' arg handlerChan) (log callWithoutStorage)).
Proof.
  assert (H : In (EReaderNew RawStream (inr "cannot create temporary file"))
                 (log callWithoutStorage)) by find_in.
  split; [exact H|].
  exact (source_failure_fails_HandleFile abLike RawStream template noStorage
           RawStream "cannot create temporary file" H).
Defined.

(** X17 on a call over two variants: the first takes the stream and is
    cancelled after one chunk, no source can be constructed for the
    second. *)
Lemma source_failure_witness :
  In (EReaderNew RawStream (inr "cannot create temporary file"))
     (log cancelledThenNoSource) /\
  returned cancelledThenNoSource = Some false /\
  exists pre h post,
    [taker; zipLike] = pre ++ h :: post /\
    returned (attempts pre RawStream template
                (fresh (bytes "abcd") (rounds 1 ++ [Cancel; Done]))) = Some None /\
    log cancelledThenNoSource
    = log (attempts pre RawStream template
             (fresh (bytes "abcd") (rounds 1 ++ [Cancel; Done])))
      ++ [ENew h; EReaderNew RawStream (inr "cannot create temporary file");
          ELogError "cannot create temporary file" "error creating reusable reader"] /\
    sends (log cancelledThenNoSource)
    = sends (log (attempts pre RawStream template
                    (fresh (bytes "abcd") (rounds 1 ++ [Cancel; Done])))) /\
    (pre = [] -> sends (log cancelledThenNoSource) = []) /\
    ((forall h', ~ accepted_by h'
                     (log (attempts pre RawStream template
                             (fresh (bytes "abcd") (rounds 1 ++ [Cancel; Done]))))) ->
     sends (log cancelledThenNoSource) = []).
Proof.
  assert (H : In (EReaderNew RawStream (inr "cannot create temporary file"))
                 (log cancelledThenNoSource))
    by (find_in).
  split; [exact H|].
  exact (source_failure_aborts_call [taker; zipLike] RawStream template
           (fresh (bytes "abcd") (rounds 1 ++ [Cancel; Done]))
           RawStream "cannot create temporary file" H).
Defined.

Lemma sniffer_well_behaved (magic : list byte) : well_behaved (sniffer magic).
Proof.
  repeat split.
  - intros w. apply drawn_refl.
  - intros ctx arg w. cbn [sniffer IsFiletype].
    pose proof (read_draws (length magic) w) as H.
    destruct (read (length magic) w) as [got w1]. exact H.
  - intros ctx arg w. cbn [sniffer FromFile].
    pose proof (read_draws (length (presented w)) w) as H.
    destruct (read (length (presented w)) w) as [got w1]. exact H.
  - intros sp Hsp. discriminate Hsp.
Qed.

(** C9 on a call with a sniffing handler. *)
Lemma sniffing_call_witness :
  (forall w, raw (New abLike w) = raw w) /\
  new_source RawStream (New abLike (world (fresh (bytes "abcd") (rounds 2 ++ [Comm]))))
  = (inl 0, world (sourced (bytes "abcd") (rounds 2 ++ [Comm]))) /\
  log sniffingCall
  = ENew abLike :: EReaderNew RawStream (inl 0)
    :: log (processHandler abLike 0 template
              (mkState (world (sourced (bytes "abcd") (rounds 2 ++ [Comm])))
                       (done (fresh (bytes "abcd") (rounds 2 ++ [Comm])))
                       (ticks (fresh (bytes "abcd") (rounds 2 ++ [Comm]))))) /\
  constructed (log sniffingCall) = [0] /\
  presented (world (sourced (bytes "abcd") (rounds 2 ++ [Comm])))
  = raw (world (fresh (bytes "abcd") (rounds 2 ++ [Comm]))) /\
  offset (world (sourced (bytes "abcd") (rounds 2 ++ [Comm]))) = 0 /\
  (forall n,
     presented (snd (read n (world (sourced (bytes "abcd") (rounds 2 ++ [Comm])))))
     = raw (world (fresh (bytes "abcd") (rounds 2 ++ [Comm])))) /\
  (forall n m,
     fst (read m (snd (seek_start 0
            (snd (read n (world (sourced (bytes "abcd") (rounds 2 ++ [Comm]))))))))
     = firstn m (raw (world (fresh (bytes "abcd") (rounds 2 ++ [Comm]))))).
Proof.
  assert (H1 : forall w, raw (New abLike w) = raw w) by reflexivity.
  assert (H2 : new_source RawStream
                 (New abLike (world (fresh (bytes "abcd") (rounds 2 ++ [Comm]))))
               = (inl 0, world (sourced (bytes "abcd") (rounds 2 ++ [Comm]))))
    by reflexivity.
  split; [exact H1|]. split; [exact H2|].
  exact (HandleFile_source_presents_the_input abLike RawStream template
           (fresh (bytes "abcd") (rounds 2 ++ [Comm])) 0 _ H1 H2).
Defined.

End Examples.

Section MoreExamples.
Import SinglePass.

Lemma relay_true_witness :
  returned relayToEnd = Some true /\
  sends (log relayToEnd) = map (with_Data template) threePayloads.
Proof.
  assert (H : returned relayToEnd = Some true) by reflexivity.
  split; [exact H|].
  exact (relay_true_means_all_forwarded threePayloads template
           (fresh [] (rounds 3 ++ [Comm])) H).
Defined.

Lemma relay_false_witness :
  returned cancelledAtOnce = Some false /\
  (done (fresh [] (rounds 1 ++ [Cancel; Done])) = true \/
   In Cancel (ticks (fresh [] (rounds 1 ++ [Cancel; Done])))) /\
  done (final cancelledAtOnce) = true.
Proof.
  assert (H : returned cancelledAtOnce = Some false) by reflexivity.
  split; [exact H|].
  exact (relay_false_means_cancelled twoPayloads template
           (fresh [] (rounds 1 ++ [Cancel; Done])) H).
Defined.

Lemma stalled_witness :
  done stalledState = false /\
  ~ In Cancel (ticks stalledState) /\
  comms (ticks stalledState) < 2 * length threePayloads + 1 /\
  returned stalled = None /\
  sends (log stalled)
  = map (with_Data template) (firstn (comms (ticks stalledState) / 2) threePayloads).
Proof.
  assert (H1 : done stalledState = false) by reflexivity.
  assert (H2 : ~ In Cancel (ticks stalledState)).
  { intros H. in_compute H; discriminate H. }
  assert (H3 : comms (ticks stalledState) < 2 * length threePayloads + 1).
  { vm_compute. lia. }
  split; [exact H1|]. split; [exact H2|]. split; [exact H3|].
  exact (relay_waits_for_a_stalled_consumer threePayloads template stalledState
           H1 H2 H3).
Defined.

Lemma rewind_witness :
  In (EIsFiletype abLike (Rewindable 0) (Wrapped 0) true) (log sniffed) /\
  abLike = abLike /\ Rewindable 0 = as_Reader 0 /\
  exists l0 l2,
    log sniffed = l0 ++ ESeek 0 None
                     :: EIsFiletype abLike (Rewindable 0) (Wrapped 0) true :: l2 /\
    (forall d e, ~ In (ESeek d e) l0 /\ ~ In (ESeek d e) l2) /\
    (forall h' a f b, ~ In (EIsFiletype h' a f b) l0 /\
                      ~ In (EIsFiletype h' a f b) l2).
Proof.
  assert (H : In (EIsFiletype abLike (Rewindable 0) (Wrapped 0) true) (log sniffed))
    by find_in.
  split; [exact H|].
  exact (type_check_follows_the_rewind abLike 0 template
           (sourced (bytes "abcd") (rounds 2 ++ [Comm]))
           abLike (Rewindable 0) (Wrapped 0) true H).
Defined.

Lemma rejected_witness :
  In (EIsFiletype zipLike (Rewindable 0) (Wrapped 0) false) (log rejected) /\
  returned rejected = Some false /\
  sends (log rejected) = [] /\
  (forall h' a c, ~ In (EFromFile h' a c) (log rejected)) /\
  exists l0, log rejected
             = l0 ++ [EIsFiletype zipLike (as_Reader 0) (Wrapped 0) false;
                      EStop 0; EClose 0].
Proof.
  assert (H : In (EIsFiletype zipLike (Rewindable 0) (Wrapped 0) false) (log rejected))
    by find_in.
  split; [exact H|].
  exact (rejection_ends_the_attempt zipLike 0 template (sourced (bytes "abcd") [])
           zipLike (Rewindable 0) (Wrapped 0) H).
Defined.

Lemma nothing_accepted_witness :
  (forall h', ~ accepted_by h' (log sniffedTwice)) /\
  returned sniffedTwice = Some false /\ sends (log sniffedTwice) = [].
Proof.
  assert (H : forall h', ~ accepted_by h' (log sniffedTwice)).
  { intros h' [(a & f & e & H) | (a & f & H)]; in_compute H; discriminate H. }
  split; [exact H|].
  exact (nothing_accepted_nothing_forwarded [zipLike; abLike] RawStream template
           (fresh (bytes "abcd") (rounds 2 ++ [Comm])) H).
Defined.

Lemma complete_relay_witness :
  returned secondTakes = Some true /\
  exists t h arg handlerChan reReader,
    In h [zipLike; taker] /\
    log secondTakes
    = t ++ EFromFile h arg handlerChan
        :: map ESend (map (with_Data template) handlerChan)
        ++ [EStop reReader; EClose reReader].
Proof.
  assert (H : returned secondTakes = Some true) by reflexivity.
  split; [exact H|].
  exact (true_means_a_complete_relay [zipLike; taker] RawStream template
           (fresh (bytes "abcd") (rounds 2 ++ [Comm])) H).
Defined.

Lemma no_rewind_witness :
  In (EHandleSpecialized container (Rewindable 0) (Wrapped 1) true (Some "odd"))
     (log unwrapped) /\
  Rewindable 0 = as_Reader 0 /\
  (exists rest,
     log unwrapped
     = EHandleSpecialized container (Rewindable 0) (Wrapped 1) true (Some "odd")
       :: rest) /\
  (forall d e, ~ In (ESeek d e) (log unwrapped)).
Proof.
  assert (H : In (EHandleSpecialized container (Rewindable 0) (Wrapped 1) true
                    (Some "odd")) (log unwrapped)) by find_in.
  split; [exact H|].
  exact (recognized_path_does_not_rewind container 0 template
           (sourced (bytes "arxx") (rounds 1 ++ [Comm]))
           container (Rewindable 0) (Wrapped 1) (Some "odd") H).
Defined.

Lemma no_probe_witness :
  specialized abLike = None /\
  (forall h' a f b e, ~ In (EHandleSpecialized h' a f b e) (log sniffed)) /\
  exists serr rest, log sniffed = ESeek 0 serr :: rest.
Proof.
  assert (H : specialized abLike = None) by reflexivity.
  split; [exact H|].
  exact (no_capability_no_probe abLike 0 template
           (sourced (bytes "abcd") (rounds 2 ++ [Comm])) H).
Defined.

Lemma only_reading_witness :
  (forall w, drawn w w) /\
  (forall w1 w2 w3, drawn w1 w2 -> drawn w2 w3 -> drawn w1 w3) /\
  library_respects drawn /\
  Forall (respects drawn) [zipLike; abLike] /\
  drawn (world (fresh (bytes "abcd") (rounds 2 ++ [Comm]))) (world (final sniffedTwice)).
Proof.
  assert (H : Forall (respects drawn) [zipLike; abLike]).
  { constructor; [apply sniffer_well_behaved|].
    constructor; [apply sniffer_well_behaved | constructor]. }
  split; [exact drawn_refl|]. split; [exact drawn_trans|].
  split; [exact library_draws_nothing|]. split; [exact H|].
  exact (dispatch_touches_the_world_only_by_foreign_calls drawn
           drawn_refl drawn_trans library_draws_nothing
           [zipLike; abLike] RawStream template
           (fresh (bytes "abcd") (rounds 2 ++ [Comm])) H).
Defined.

End MoreExamples.
